(** * Node cloning pipeline of html-to-image ([src/clone-node.ts])

    A shallow embedding of the recursive cloning pipeline: per-node-type
    cloning, child traversal with shadow-root and slot semantics, style
    replication with scroll corrections, and decoration of form state.

    Promises are modelled by a writer/error monad: a computation yields the
    list of observable events it performed together with either a resolved
    value or a rejection.  The ambient browser state (computed styles, the
    window, JavaScript numbers) is passed explicitly. *)

From Stdlib Require Import ZArith Ascii String List Bool Lia.
From Stdlib Require Import SpecFloat DecimalString.
From stdpp Require Import gmap strings list fin_maps.

Set Warnings "-register-all".

Local Open Scope string_scope.

(** ** JavaScript strings *)

Module JSString.

(** [s.endsWith(suffix)] *)
Definition endsWith (s suffix : string) : bool :=
  let n := String.length s in
  let k := String.length suffix in
  (k <=? n)%nat && String.eqb (String.substring (n - k) k s) suffix.

(** [s.substring(0, s.length - k)] *)
Definition dropLast (k : nat) (s : string) : string :=
  String.substring 0 (String.length s - k) s.

(** [s.replace(pat, rep)] with a string pattern: only the first occurrence
    is replaced. *)
Definition replace (s pat rep : string) : string :=
  match String.index 0 pat s with
  | Some i =>
      String.substring 0 i s ++ rep ++
      String.substring (i + String.length pat)
                       (String.length s - (i + String.length pat)) s
  | None => s
  end.

Definition upper_ascii (c : ascii) : ascii :=
  let n := nat_of_ascii c in
  if ((97 <=? n) && (n <=? 122))%nat then ascii_of_nat (n - 32) else c.

(** [s.toUpperCase()] on the ASCII range, which is where tag names live. *)
Fixpoint toUpperCase (s : string) : string :=
  match s with
  | EmptyString => EmptyString
  | String c r => String (upper_ascii c) (toUpperCase r)
  end.

End JSString.

(** ** JavaScript numbers

    The pipeline only touches numbers through a handful of built-ins.  They
    are kept abstract, so that every statement below holds for the IEEE
    double semantics of a real engine as well as for the exact decimal
    instance used in the examples. *)

Class Number := {
  num : Type;
  parseFloat : string -> num;
  parseInt : string -> num;
  Math_floor : num -> num;
  num_sub : num -> num -> num;
  num_0 : num;
  num_0_1 : num;
  num_gt : num -> num -> bool;
  num_lt : num -> num -> bool;
  num_toString : num -> string
}.

(** ** IEEE 754 doubles

    The numbers of an actual engine: binary64 as specified by the standard
    library's [SpecFloat], with the reading ([parseFloat], [parseInt]) and
    printing (Number::toString, the shortest decimal that reads back)
    algorithms of ECMAScript on ASCII input. *)

Module Double.

Local Open Scope Z_scope.

Definition prec : Z := 53.
Definition emax : Z := 1024.

(** The double nearest to [(-1)^neg * m * 10^x] (ties to even). *)
Definition of_decimal (neg : bool) (m : Z) (x : Z) : spec_float :=
  match m with
  | Zpos p =>
      if 0 <=? x then binary_normalize prec emax (cond_Zopp neg (m * 10 ^ x)) 0 neg
      else SFdiv prec emax (S754_finite neg p 0)
                           (S754_finite false (Z.to_pos (10 ^ (- x))) 0)
  | _ => S754_zero neg
  end.

Definition of_Z (z : Z) : spec_float := binary_normalize prec emax z 0 false.

(** *** Reading numbers *)

Definition is_digit (c : ascii) : bool :=
  let n := nat_of_ascii c in ((48 <=? n) && (n <=? 57))%nat.

Definition is_space (c : ascii) : bool :=
  let n := nat_of_ascii c in
  ((9 <=? n) && (n <=? 13) || (n =? 32))%nat.

Fixpoint skip_spaces (s : string) : string :=
  match s with
  | String c r => if is_space c then skip_spaces r else s
  | EmptyString => s
  end.

(** Longest prefix of decimal digits: its value, its length, the rest. *)
Fixpoint digits (s : string) (acc : Z) (len : Z) : Z * Z * string :=
  match s with
  | String c r =>
      if is_digit c
      then digits r (10 * acc + Z.of_nat (nat_of_ascii c - 48)) (len + 1)
      else (acc, len, s)
  | EmptyString => (acc, len, s)
  end.

Definition sign (s : string) : bool * string :=
  match s with
  | String "-" r => (true, r)
  | String "+" r => (false, r)
  | _ => (false, s)
  end.

(** The exponent part counts only when a digit follows. *)
Definition exponent (s : string) : Z :=
  match s with
  | String c r =>
      if Ascii.eqb c "e" || Ascii.eqb c "E" then
        let (neg, r) := sign r in
        let '(v, len, _) := digits r 0 0 in
        if len =? 0 then 0 else cond_Zopp neg v
      else 0
  | EmptyString => 0
  end.

Definition parseFloat (s : string) : spec_float :=
  let (neg, s) := sign (skip_spaces s) in
  if String.prefix "Infinity" s then S754_infinity neg
  else
    let '(i, ilen, s) := digits s 0 0 in
    let '(f, flen, s) :=
      match s with
      | String "." r => digits r i 0
      | _ => (i, 0, s)
      end in
    if (ilen =? 0) && (flen =? 0) then S754_nan
    else of_decimal neg f (exponent s - flen).

Definition hex_value (c : ascii) : option Z :=
  let n := nat_of_ascii c in
  if ((48 <=? n) && (n <=? 57))%nat then Some (Z.of_nat (n - 48))
  else if ((97 <=? n) && (n <=? 102))%nat then Some (Z.of_nat (n - 87))
  else if ((65 <=? n) && (n <=? 70))%nat then Some (Z.of_nat (n - 55))
  else None.

Fixpoint hex_digits (s : string) (acc : Z) (len : Z) : Z * Z :=
  match s with
  | String c r =>
      match hex_value c with
      | Some d => hex_digits r (16 * acc + d) (len + 1)
      | None => (acc, len)
      end
  | EmptyString => (acc, len)
  end.

(** [parseInt(s)] without a radix argument. *)
Definition parseInt (s : string) : spec_float :=
  let (neg, s) := sign (skip_spaces s) in
  let '(v, len) :=
    match s with
    | String "0" (String x r) =>
        if Ascii.eqb x "x" || Ascii.eqb x "X" then hex_digits r 0 0
        else let '(v, len, _) := digits s 0 0 in (v, len)
    | _ => let '(v, len, _) := digits s 0 0 in (v, len)
    end in
  if len =? 0 then S754_nan else of_decimal neg v 0.

(** *** Arithmetic *)

Definition floor (x : spec_float) : spec_float :=
  match x with
  | S754_finite s m e =>
      if 0 <=? e then x
      else
        let q := cond_Zopp s (Zpos m) / 2 ^ (- e) in
        binary_normalize prec emax q 0 s
  | _ => x
  end.

Definition sub : spec_float -> spec_float -> spec_float := SFsub prec emax.
Definition ltb : spec_float -> spec_float -> bool := SFltb.
Definition gtb (a b : spec_float) : bool := SFltb b a.

(** *** Printing numbers: the shortest decimal that reads back *)

Definition same (a b : spec_float) : bool :=
  match a, b with
  | S754_finite s m e, S754_finite s' m' e' =>
      Bool.eqb s s' && Pos.eqb m m' && Z.eqb e e'
  | _, _ => false
  end.

Definition Z_to_string (z : Z) : string :=
  NilZero.string_of_uint (N.to_uint (Z.to_N z)).

(** For [x = num/den > 0], the [n] with [10^(n-1) <= x < 10^n]. *)
Fixpoint magnitude_up (fuel : nat) (q : Z) (n : Z) : Z :=
  match fuel with
  | O => n
  | S fuel => if q =? 0 then n else magnitude_up fuel (q / 10) (n + 1)
  end.

Fixpoint magnitude_down (fuel : nat) (num den : Z) (n : Z) : Z :=
  match fuel with
  | O => n
  | S fuel =>
      if den <=? num then n else magnitude_down fuel (10 * num) den (n - 1)
  end.

Definition magnitude (num den : Z) : Z :=
  if den <=? num then magnitude_up 400 (num / den) 0
  else magnitude_down 400 (10 * num) den 0.

(** The candidates with [k] digits around [x]; the closest one that reads
    back as [x], if any, as (digits, decimal exponent). *)
Definition candidate (x : spec_float) (num den n k : Z) : option (Z * Z) :=
  let q := n - k in
  let '(a, b) := if 0 <=? q then (num, den * 10 ^ q)
                 else (num * 10 ^ (- q), den) in
  let lo := a / b in
  let hi := lo + 1 in
  let ok_lo := same (of_decimal false lo q) x in
  let ok_hi := same (of_decimal false hi q) x in
  match ok_lo, ok_hi with
  | true, false => Some (lo, q)
  | false, true => Some (hi, q)
  | false, false => None
  | true, true =>
      match 2 * a ?= (2 * lo + 1) * b with
      | Lt => Some (lo, q)
      | Gt => Some (hi, q)
      | Eq => Some (if Z.even lo then lo else hi, q)
      end
  end.

Fixpoint shortest (fuel : nat) (x : spec_float) (num den n k : Z)
  : Z * Z :=
  match fuel with
  | O => (0, 0)
  | S fuel =>
      match candidate x num den n k with
      | Some r => r
      | None => shortest fuel x num den n (k + 1)
      end
  end.

Fixpoint strip_zeros (fuel : nat) (s q : Z) : Z * Z :=
  match fuel with
  | O => (s, q)
  | S fuel =>
      if (s mod 10 =? 0) && negb (s =? 0) then strip_zeros fuel (s / 10) (q + 1)
      else (s, q)
  end.

Fixpoint zeros (n : nat) : string :=
  match n with O => "" | S n => "0" ++ zeros n end.

(** Number::toString for a positive finite [m * 2^e]. *)
Definition format (x : spec_float) (m : positive) (e : Z) : string :=
  let '(num, den) := if 0 <=? e then (Zpos m * 2 ^ e, 1)
                     else (Zpos m, 2 ^ (- e)) in
  let n0 := magnitude num den in
  let '(s, q) := shortest 20 x num den n0 1 in
  let '(s, q) := strip_zeros 20 s q in
  let ds := Z_to_string s in
  let k := Z.of_nat (String.length ds) in
  let n := k + q in
  if (k <=? n) && (n <=? 21) then ds ++ zeros (Z.to_nat (n - k))
  else if (0 <? n) && (n <=? 21) then
    String.substring 0 (Z.to_nat n) ds ++ "." ++
    String.substring (Z.to_nat n) (Z.to_nat (k - n)) ds
  else if (-6 <? n) && (n <=? 0) then
    "0." ++ zeros (Z.to_nat (- n)) ++ ds
  else
    let ex := (if 0 <=? n - 1 then "+" else "-") ++ Z_to_string (Z.abs (n - 1)) in
    if k =? 1 then ds ++ "e" ++ ex
    else String.substring 0 1 ds ++ "." ++
         String.substring 1 (Z.to_nat (k - 1)) ds ++ "e" ++ ex.

Definition toString (x : spec_float) : string :=
  match x with
  | S754_nan => "NaN"
  | S754_zero _ => "0"
  | S754_infinity s => if s then "-Infinity" else "Infinity"
  | S754_finite s m e =>
      (if s then "-" else "") ++ format (S754_finite false m e) m e
  end.

End Double.

Definition DoubleNumber : Number := {|
  num := spec_float;
  parseFloat := Double.parseFloat;
  parseInt := Double.parseInt;
  Math_floor := Double.floor;
  num_sub := Double.sub;
  num_0 := S754_zero false;
  num_0_1 := Double.of_decimal false 1 (-1);
  num_gt := Double.gtb;
  num_lt := Double.ltb;
  num_toString := Double.toString
|}.

(** ** The DOM data model *)

(** The interfaces the pipeline distinguishes with [instanceof]. *)
Inductive Interface :=
| HTMLCanvasElement
| HTMLVideoElement
| HTMLTextAreaElement
| HTMLInputElement
| HTMLSelectElement
| HTMLImageElement
| HTMLElement        (* any other HTML element *)
| Element            (* any other element, e.g. of a foreign namespace *)
| CharacterData.     (* text and comment nodes: not an [Element] *)

Definition Interface_eqb (a b : Interface) : bool :=
  match a, b with
  | HTMLCanvasElement, HTMLCanvasElement
  | HTMLVideoElement, HTMLVideoElement
  | HTMLTextAreaElement, HTMLTextAreaElement
  | HTMLInputElement, HTMLInputElement
  | HTMLSelectElement, HTMLSelectElement
  | HTMLImageElement, HTMLImageElement
  | HTMLElement, HTMLElement
  | Element, Element
  | CharacterData, CharacterData => true
  | _, _ => false
  end.

(** [x instanceof Element] *)
Definition instanceof_Element (i : Interface) : bool :=
  negb (Interface_eqb i CharacterData).

(** A declaration block that can be written to ([element.style]): property
    name to (value, priority). *)
Abbreviation Style := (gmap string (string * string)).

(** Property names are plain keys: the expansion of a shorthand into its
    longhands is outside the model. *)
Definition removeProperty (name : string) (s : Style) : Style :=
  delete name s.

(** What the declaration block does with the arguments of [setProperty]
    before it stores anything. *)
Module CSS.

(** The priority must be empty or [important], in any case. *)
Definition priority_ok (priority : string) : bool :=
  String.eqb priority ""
  || String.eqb (JSString.toUpperCase priority) "IMPORTANT".

Definition starts_a_number (value : string) : bool :=
  match value with
  | String c _ =>
      let n := nat_of_ascii c in
      ((48 <=? n) && (n <=? 57))%nat || Ascii.eqb c "." || Ascii.eqb c "+"
  | EmptyString => false
  end.

(** The values the parser refuses.  Of the parser only this much is
    modelled: a [font-size] in pixels is a non-negative number followed by
    [px], so that [-0.1px], [NaNpx] and [Infinitypx] are refused.  Values
    the engine serialized itself in a computed style, and the keywords and
    offsets the scroll corrections put together, are taken as well formed. *)
Definition refused (name value : string) : bool :=
  String.eqb name "font-size"
  && JSString.endsWith value "px"
  && negb (starts_a_number value).

End CSS.

(** [style.setProperty(name, value, priority)]: an empty value removes the
    property; a priority that is neither empty nor [important], or a value
    the parser refuses, leaves the block as it is; otherwise the declaration
    is stored. *)
Definition setProperty (name value priority : string) (s : Style) : Style :=
  if String.eqb value "" then removeProperty name s
  else if negb (CSS.priority_ok priority) then s
  else if CSS.refused name value then s
  else <[name := (value, priority)]> s.

(** A computed style ([window.getComputedStyle(node)]): read-only.  Like
    every declaration block it is a list of declarations, each a property
    name with its value and importance; an entry without a value is no
    declaration. *)
Record ComputedStyle := {
  cssText : string;
  declared : list (string * (string * bool))
}.

Definition declarations (s : ComputedStyle) : list (string * (string * bool)) :=
  List.filter (fun d => negb (String.eqb (fst (snd d)) "")) (declared s).

Fixpoint declaration_of (name : string) (l : list (string * (string * bool)))
  : option (string * bool) :=
  match l with
  | [] => None
  | (k, d) :: r => if String.eqb k name then Some d else declaration_of name r
  end.

(** The enumeration [toArray(style)] iterates: the declared properties. *)
Definition cs_names (s : ComputedStyle) : list string :=
  map fst (declarations s).

(** [style.getPropertyValue(name)]: empty when the property is not
    declared. *)
Definition getPropertyValue (s : ComputedStyle) (name : string) : string :=
  match declaration_of name (declarations s) with
  | Some (value, _) => value
  | None => ""
  end.

(** [style.getPropertyPriority(name)]: [important] or empty. *)
Definition getPropertyPriority (s : ComputedStyle) (name : string) : string :=
  match declaration_of name (declarations s) with
  | Some (_, true) => "important"
  | _ => ""
  end.

(** The camel-cased IDL attributes read by the pipeline. *)
Definition overflowY (s : ComputedStyle) := getPropertyValue s "overflow-y".
Definition position (s : ComputedStyle) := getPropertyValue s "position".
Definition minHeight (s : ComputedStyle) := getPropertyValue s "min-height".
Definition height (s : ComputedStyle) := getPropertyValue s "height".
Definition transformOrigin (s : ComputedStyle) :=
  getPropertyValue s "transform-origin".

(** How a promise settles. *)
Inductive Outcome (A : Type) :=
| Resolved (a : A)
| Rejected (reason : string).
Arguments Resolved {A} a.
Arguments Rejected {A} reason.

Section Model.

Context {N : Number}.

(** [window] *)
Record Window := {
  innerHeight : num;
  scrollY : num
}.

(** What style replication reads from [node.parentElement]. *)
Record ParentElement := {
  p_scrollTop : num;
  p_computedStyle : ComputedStyle
}.

(** A live node (VisualNode).  [assignedNodes] is [None] when the node has
    no such method, and [Some l] when calling it returns [l]. *)
Inductive Node := mkNode {
  interface : Interface;
  tagName : option string;
  attributes : list (string * string);
  style : option Style;
  data : string;
  poster : string;
  toDataURL : string;
  value : string;
  scrollTop : num;
  computedStyle : ComputedStyle;
  parentElement : option ParentElement;
  assignedNodes : option (list Node);
  shadowRoot : option (list Node);
  childNodes : list Node
}.

(** A detached node under construction (ClonedNode). *)
Inductive Cloned := mkCloned {
  c_interface : Interface;
  c_tagName : option string;
  c_attributes : list (string * string);
  c_style : option Style;
  c_data : string;
  c_childNodes : list Cloned
}.

(** [node.cloneNode(false)]: tag, attributes, inline style and character
    data are copied; children, shadow root and canvas bitmap are not. *)
Definition shallowClone (node : Node) : Cloned :=
  {| c_interface := interface node;
     c_tagName := tagName node;
     c_attributes := attributes node;
     c_style := style node;
     c_data := data node;
     c_childNodes := [] |}.

(** [parent.appendChild(child)] *)
Definition appendChild (parent child : Cloned) : Cloned :=
  {| c_interface := c_interface parent;
     c_tagName := c_tagName parent;
     c_attributes := c_attributes parent;
     c_style := c_style parent;
     c_data := c_data parent;
     c_childNodes := (c_childNodes parent ++ [child])%list |}.

(** [el.setAttribute(name, v)] *)
Fixpoint set_assoc (name v : string) (l : list (string * string)) :=
  match l with
  | [] => [(name, v)]
  | (k, w) :: r =>
      if String.eqb k name then (k, v) :: r else (k, w) :: set_assoc name v r
  end.

Definition setAttribute (name v : string) (c : Cloned) : Cloned :=
  {| c_interface := c_interface c;
     c_tagName := c_tagName c;
     c_attributes := set_assoc name v (c_attributes c);
     c_style := c_style c;
     c_data := c_data c;
     c_childNodes := c_childNodes c |}.

(** [el.getAttribute(name)], [None] for [null]. *)
Fixpoint getAttribute (name : string) (l : list (string * string))
  : option string :=
  match l with
  | [] => None
  | (k, w) :: r => if String.eqb k name then Some w else getAttribute name r
  end.

Definition with_style (s : Style) (c : Cloned) : Cloned :=
  {| c_interface := c_interface c;
     c_tagName := c_tagName c;
     c_attributes := c_attributes c;
     c_style := Some s;
     c_data := c_data c;
     c_childNodes := c_childNodes c |}.

Definition with_childNodes (l : list Cloned) (c : Cloned) : Cloned :=
  {| c_interface := c_interface c;
     c_tagName := c_tagName c;
     c_attributes := c_attributes c;
     c_style := c_style c;
     c_data := c_data c;
     c_childNodes := l |}.

(** The per-invocation configuration: the optional inclusion predicate.
    The resource options are passed through to the collaborator
    untouched. *)
Record Options := {
  filter : option (Node -> bool);
  resourceOptions : string
}.

(** ** Promises *)

(** Observable steps of a run. *)
Inductive Event :=
| EvCloneNode (node : Node) (isRoot : bool)   (* [cloneNode] entered *)
| EvFilter (node : Node)                      (* [options.filter(node)] *)
| EvToDataURL (node : Node)                   (* [canvas.toDataURL()] *)
| EvResource (url contentType : string).      (* [resourceToDataURL] *)

Definition Promise (A : Type) : Type := (list Event * Outcome A)%type.

Definition resolve {A} (a : A) : Promise A := ([], Resolved a).

Definition emit (e : Event) : Promise unit := ([e], Resolved tt).

(** [p.then(f)], also the sequencing of [await]. *)
Definition then_ {A B} (p : Promise A) (f : A -> Promise B) : Promise B :=
  match p with
  | (t, Resolved a) => let (t', r) := f a in ((t ++ t')%list, r)
  | (t, Rejected e) => (t, Rejected e)
  end.

Definition trace {A} (p : Promise A) : list Event := fst p.
Definition outcome {A} (p : Promise A) : Outcome A := snd p.

Notation "'await' x <- p ; k" := (then_ p (fun x => k))
  (at level 10, x name, p at level 100, k at level 200).
Notation "'await_' p ; k" := (then_ p (fun _ => k))
  (at level 10, p at level 100, k at level 200).

(** ** Collaborators

    What the pipeline imports or reads from the ambient browser state. *)
Record Environment := {
  getMimeType : string -> string;
  resourceToDataURL : string -> string -> Options -> Outcome string;
  clonePseudoElements : Node -> Cloned -> Cloned;
  window : Window;
  (* the parser behind the [cssText] setter of a declaration block *)
  parse_cssText : string -> Style;
  (* the parser behind the [innerHTML] setter *)
  parse_innerHTML : string -> list Cloned
}.

(** Modelled from the spec: [toArray] of the util module is not among the
    sources.  It turns an array-like into an array; both are lists here. *)
Definition toArray {A} (arrayLike : list A) : list A := arrayLike.

(** Modelled from the spec: [createImage] of the util module is not among
    the sources.  The spec has it produce "a new image-type node whose
    source is" the given representation. *)
Definition createImage (url : string) : Promise Cloned :=
  resolve {| c_interface := HTMLImageElement;
             c_tagName := Some "IMG";
             c_attributes := [("src", url)];
             c_style := Some ∅;
             c_data := "";
             c_childNodes := [] |}.

Variable env : Environment.

(** ** Per-node-type cloning *)

Definition cloneCanvasElement (canvas : Node) : Promise Cloned :=
  await_ emit (EvToDataURL canvas);
  let dataURL := toDataURL canvas in
  if String.eqb dataURL "data:," then resolve (shallowClone canvas)
  else createImage dataURL.

Definition cloneVideoElement (video : Node) (options : Options)
  : Promise Cloned :=
  let poster := poster video in
  let contentType := getMimeType env poster in
  await dataURL <- ([EvResource poster contentType],
                    resourceToDataURL env poster contentType options);
  createImage dataURL.

Definition cloneSingleNode (node : Node) (options : Options)
  : Promise Cloned :=
  if Interface_eqb (interface node) HTMLCanvasElement then
    cloneCanvasElement node
  else if Interface_eqb (interface node) HTMLVideoElement
          && negb (String.eqb (poster node) "") then
    cloneVideoElement node options
  else resolve (shallowClone node).

Definition isSlotElement (node : Node) : bool :=
  match tagName node with
  | Some t => String.eqb (JSString.toUpperCase t) "SLOT"
  | None => false
  end.

(** ** Child traversal *)

(** The list [cloneChildren] iterates. *)
Definition children (nativeNode : Node) : list Node :=
  match isSlotElement nativeNode, assignedNodes nativeNode with
  | true, Some assigned => toArray assigned
  | _, _ =>
      toArray (match shadowRoot nativeNode with
               | Some root => root
               | None => childNodes nativeNode
               end)
  end.

(** The callback of the [reduce] over the children.  The clone under
    construction is shared by all steps; it is threaded through the
    accumulated promise here. *)
Definition cloneChildren_each
    (cloneNode : Node -> Options -> Promise (option Cloned))
    (options : Options) (deferred : Promise Cloned) (child : Node)
  : Promise Cloned :=
  await clonedNode <- deferred;
  await clonedChild <- cloneNode child options;
  resolve (match clonedChild with
           | Some clonedChild => appendChild clonedNode clonedChild
           | None => clonedNode
           end).

(** [cloneChildren], open in the recursive call to [cloneNode]. *)
Definition cloneChildren_
    (cloneNode : Node -> Options -> Promise (option Cloned))
    (nativeNode : Node) (clonedNode : Cloned) (options : Options)
  : Promise Cloned :=
  let children := children nativeNode in
  if (length children =? 0)%nat
     || Interface_eqb (interface nativeNode) HTMLVideoElement then
    resolve clonedNode
  else
    fold_left (cloneChildren_each cloneNode options)
      children (resolve clonedNode).

(** ** Style replication *)

Definition autoOrScroll (v : string) : bool :=
  String.eqb v "auto" || String.eqb v "scroll".

(** The condition of the ancestor-scroll correction. *)
Definition parentScrolling (parent : ParentElement) : bool :=
  num_gt (p_scrollTop parent) num_0
  && autoOrScroll (overflowY (p_computedStyle parent)).

(** The condition of the document-scroll correction ("body scrolling"). *)
Definition bodyScrolling (sourceStyle parentStyle : ComputedStyle) : bool :=
  negb (String.eqb (position sourceStyle) "fixed")
  && String.eqb (minHeight parentStyle)
       (num_toString (innerHeight (window env)) ++ "px")
  && num_lt
       (parseInt (JSString.replace (minHeight parentStyle) "px" ""))
       (parseInt (JSString.replace (height sourceStyle) "px" "")).

(** The body of the [forEach] callback up to the final [setProperty]: the
    value is read and rewritten by the four corrections in turn; the
    target loses [inset-block] whenever [top] is rewritten. *)
Definition cloneCSSStyle_value (nativeNode : Node)
    (sourceStyle : ComputedStyle) (parent : option ParentElement)
    (targetStyle : Style) (name : string) : string * Style :=
  let value := getPropertyValue sourceStyle name in
  let value :=
    if String.eqb name "font-size" && JSString.endsWith value "px" then
      let reducedFont :=
        num_sub
          (Math_floor
             (parseFloat
                (String.substring 0 (String.length value - 2) value)))
          num_0_1 in
      num_toString reducedFont ++ "px"
    else value in
  (* non-body scrolling *)
  let value :=
    if num_gt (scrollTop nativeNode) num_0
       && autoOrScroll (overflowY sourceStyle)
       && String.eqb name "overflow-y"
    then "hidden" else value in
  match parent with
  | Some parent =>
      let parentStyle := p_computedStyle parent in
      let '(value, targetStyle) :=
        if parentScrolling parent then
          if String.eqb name "position" then ("relative", targetStyle)
          else if String.eqb name "top" then
            ("-" ++ num_toString (p_scrollTop parent) ++ "px",
             (* inset-block must be removed *)
             removeProperty "inset-block" targetStyle)
          else (value, targetStyle)
        else (value, targetStyle) in
      (* body scrolling *)
      if bodyScrolling sourceStyle parentStyle then
        if String.eqb name "position" then ("relative", targetStyle)
        else if String.eqb name "top" then
          ("-" ++ num_toString (scrollY (window env)) ++ "px",
           (* inset-block must be removed *)
           removeProperty "inset-block" targetStyle)
        else (value, targetStyle)
      else (value, targetStyle)
  | None => (value, targetStyle)
  end.

(** The callback of the [forEach] over the computed property names. *)
Definition cloneCSSStyle_each (nativeNode : Node)
    (sourceStyle : ComputedStyle) (parent : option ParentElement)
    (targetStyle : Style) (name : string) : Style :=
  let '(value, targetStyle) :=
    cloneCSSStyle_value nativeNode sourceStyle parent targetStyle name in
  setProperty name value (getPropertyPriority sourceStyle name) targetStyle.

Definition cloneCSSStyle (nativeNode : Node) (clonedNode : Cloned) : Cloned :=
  match c_style clonedNode with
  | None => clonedNode
  | Some targetStyle =>
      let sourceStyle := computedStyle nativeNode in
      let parent := parentElement nativeNode in
      if negb (String.eqb (cssText sourceStyle) "") then
        let targetStyle := parse_cssText env (cssText sourceStyle) in
        let targetStyle :=
          setProperty "transform-origin" (transformOrigin sourceStyle) ""
            targetStyle in
        with_style targetStyle clonedNode
      else
        with_style
          (fold_left (cloneCSSStyle_each nativeNode sourceStyle parent)
             (toArray (cs_names sourceStyle)) targetStyle)
          clonedNode
  end.

(** ** Form state *)

Definition cloneInputValue (nativeNode : Node) (clonedNode : Cloned)
  : Cloned :=
  let clonedNode :=
    if Interface_eqb (interface nativeNode) HTMLTextAreaElement then
      with_childNodes (parse_innerHTML env (value nativeNode)) clonedNode
    else clonedNode in
  if Interface_eqb (interface nativeNode) HTMLInputElement then
    setAttribute "value" (value nativeNode) clonedNode
  else clonedNode.

(** [children.find(...)] followed by [setAttribute] on the match: the first
    element child whose [value] attribute equals [v] is marked. *)
Fixpoint select_first (v : string) (l : list Cloned) : list Cloned :=
  match l with
  | [] => []
  | child :: rest =>
      if instanceof_Element (c_interface child)
         && match getAttribute "value" (c_attributes child) with
            | Some w => String.eqb v w
            | None => false
            end
      then setAttribute "selected" "" child :: rest
      else child :: select_first v rest
  end.

Definition cloneSelectValue (nativeNode : Node) (clonedNode : Cloned)
  : Cloned :=
  if Interface_eqb (interface nativeNode) HTMLSelectElement then
    with_childNodes
      (select_first (value nativeNode) (c_childNodes clonedNode)) clonedNode
  else clonedNode.

Definition decorate (nativeNode : Node) (clonedNode : Cloned) : Cloned :=
  if instanceof_Element (c_interface clonedNode) then
    let clonedNode := cloneCSSStyle nativeNode clonedNode in
    let clonedNode := clonePseudoElements env nativeNode clonedNode in
    let clonedNode := cloneInputValue nativeNode clonedNode in
    let clonedNode := cloneSelectValue nativeNode clonedNode in
    clonedNode
  else clonedNode.

(** ** The entry point *)

(** [options.filter && !options.filter(node)], with the call recorded. *)
Definition excluded (node : Node) (options : Options) : Promise bool :=
  match filter options with
  | Some f => await_ emit (EvFilter node); resolve (negb (f node))
  | None => resolve false
  end.

Fixpoint cloneNode (node : Node) (options : Options) (isRoot : bool)
    {struct node} : Promise (option Cloned) :=
  await_ emit (EvCloneNode node isRoot);
  await skip <- (if isRoot then resolve false else excluded node options);
  if skip then resolve None
  else
    await clonedNode <- cloneSingleNode node options;
    await clonedNode <-
      cloneChildren_ (fun child options => cloneNode child options false)
        node clonedNode options;
    resolve (Some (decorate node clonedNode)).

Definition cloneChildren (nativeNode : Node) (clonedNode : Cloned)
    (options : Options) : Promise Cloned :=
  cloneChildren_ (fun child options => cloneNode child options false)
    nativeNode clonedNode options.

(** One step of that traversal. *)
Definition attach (options : Options) (deferred : Promise Cloned)
    (child : Node) : Promise Cloned :=
  cloneChildren_each (fun child options => cloneNode child options false)
    options deferred child.

End Model.

Notation "'await' x <- p ; k" := (then_ p (fun x => k))
  (at level 10, x name, p at level 100, k at level 200).
Notation "'await_' p ; k" := (then_ p (fun _ => k))
  (at level 10, p at level 100, k at level 200).

(** ** Vocabulary of the statements *)

Section Vocabulary.

Context {N : Number}.
Variable env : Environment.

(** A promise that resolved. *)
Definition resolves {A} (p : Promise A) : Prop :=
  exists a, outcome p = Resolved a.

(** What a child contributes to its parent's clone: its own clone, unless
    the inclusion predicate turned it into [null]. *)
Definition clone_of (options : Options) (child : Node) : option Cloned :=
  match outcome (cloneNode env child options false) with
  | Resolved (Some clonedChild) => Some clonedChild
  | _ => None
  end.

(** The run of [p] attempted the conversion of [url]. *)
Definition attempts {A} (p : Promise A) (url contentType : string) : Prop :=
  In (EvResource url contentType) (trace p).

(** The same, as a test on the events of the run. *)
Definition is_conversion (url contentType : string) (e : Event) : bool :=
  match e with
  | EvResource u c => String.eqb u url && String.eqb c contentType
  | _ => false
  end.

Definition attemptsb {A} (p : Promise A) (url contentType : string) : bool :=
  existsb (is_conversion url contentType) (trace p).

(** The run of [p] consulted the inclusion predicate about [node]. *)
Definition consults {A} (p : Promise A) (node : Node) : Prop :=
  In (EvFilter node) (trace p).

(** If the run of [p] attempted the conversion of [url], then [p] is
    rejected for [reason]. *)
Definition fails_with {A} (url contentType reason : string)
    (p : Promise A) : Prop :=
  attempts p url contentType -> outcome p = Rejected reason.

(** The test of the [find] in [cloneSelectValue]: an element child whose
    [value] attribute is [v]. *)
Definition option_matches (v : string) (child : Cloned) : bool :=
  instanceof_Element (c_interface child)
  && match getAttribute "value" (c_attributes child) with
     | Some w => String.eqb v w
     | None => false
     end.

(** The nodes the traversal can reach from a node: itself, and what is
    reachable from the effective children of a node that is not a video. *)
Inductive effective_descendant : Node -> Node -> Prop :=
| descendant_self node : effective_descendant node node
| descendant_step node child m :
    interface node <> HTMLVideoElement ->
    In child (children node) ->
    effective_descendant child m ->
    effective_descendant node m.

(** What the guard of [cloneNode] lets through below the root. *)
Definition accepted (options : Options) (node : Node) : bool :=
  match filter options with
  | Some f => f node
  | None => true
  end.

End Vocabulary.

(** ** Measures and concrete instances used by the proofs *)

Section Size.

Context {N : Number}.

Definition sum_sizes (size : Node -> nat) (l : list Node) : nat :=
  fold_right (fun n acc => size n + acc) 0 l.

(** Number of nodes reachable from [n] through child lists, shadow roots
    and slot assignments. *)
Fixpoint node_size (n : Node) : nat :=
  S (sum_sizes node_size (childNodes n)
     + match shadowRoot n with
       | Some l => sum_sizes node_size l
       | None => 0
       end
     + match assignedNodes n with
       | Some l => sum_sizes node_size l
       | None => 0
       end).

(** The node an event is about, if any. *)
Definition event_node (e : Event) : option Node :=
  match e with
  | EvCloneNode n _ | EvFilter n | EvToDataURL n => Some n
  | EvResource _ _ => None
  end.

(** An event that stays inside the subtree of a node of size [k]. *)
Definition event_within (k : nat) (e : Event) : Prop :=
  match event_node e with
  | Some m => node_size m <= k
  | None => True
  end.

(** A run all of whose events stay within size [k]. *)
Definition stays_within {A} (k : nat) (p : Promise A) : Prop :=
  Forall (event_within k) (trace p).

End Size.

(** A reader for the serialized form of a declaration block, as the
    [cssText] setter of a browser would apply it to well-formed input:
    [name: value;] items, an optional [!important] mark. *)
Module CSSText.

Fixpoint split_on (sep : ascii) (s : string) : list string :=
  match s with
  | EmptyString => [EmptyString]
  | String c r =>
      if Ascii.eqb c sep then EmptyString :: split_on sep r
      else match split_on sep r with
           | h :: t => String c h :: t
           | [] => [String c EmptyString]
           end
  end.

Fixpoint trim_right (s : string) : string :=
  match s with
  | EmptyString => EmptyString
  | String c r =>
      let r' := trim_right r in
      if Double.is_space c && String.eqb r' "" then "" else String c r'
  end.

Definition trim (s : string) : string := trim_right (Double.skip_spaces s).

Definition declaration (item : string)
  : option (string * (string * string)) :=
  match String.index 0 ":" item with
  | Some i =>
      let name := trim (String.substring 0 i item) in
      let v := trim (String.substring (i + 1) (String.length item - (i + 1)) item) in
      if JSString.endsWith v "!important"
      then Some (name, (trim (JSString.dropLast 10 v), "important"))
      else Some (name, (v, ""))
  | None => None
  end.

Definition parse (text : string) : Style :=
  fold_left
    (fun (s : Style) item =>
       match declaration item with
       | Some (name, d) => <[name := d]> s
       | None => s
       end)
    (split_on ";" text) ∅.

End CSSText.

(** Concrete nodes and a concrete environment over IEEE doubles. *)
Module Sample.

#[local] Existing Instance DoubleNumber.

Definition number (z : Z) : num := Double.of_Z z.

(** A computed style enumerating [l] in order, without serialized form. *)
Definition computed (l : list (string * string)) : ComputedStyle :=
  {| cssText := "";
     declared := map (fun d => (fst d, (snd d, false))) l |}.

(** The same, with a serialized form. *)
Definition serialized (text : string) (l : list (string * string))
  : ComputedStyle :=
  {| cssText := text;
     declared := map (fun d => (fst d, (snd d, false))) l |}.

Definition element (i : Interface) (tag : string) (kids : list Node) : Node :=
  {| interface := i; tagName := Some tag; attributes := [];
     style := Some ∅; data := ""; poster := ""; toDataURL := "";
     value := ""; scrollTop := number 0; computedStyle := computed [];
     parentElement := None; assignedNodes := None; shadowRoot := None;
     childNodes := kids |}.

Definition text (d : string) : Node :=
  {| interface := CharacterData; tagName := None; attributes := [];
     style := None; data := d; poster := ""; toDataURL := "";
     value := ""; scrollTop := number 0; computedStyle := computed [];
     parentElement := None; assignedNodes := None; shadowRoot := None;
     childNodes := [] |}.

(** An element with the given scroll offset, computed style and parent. *)
Definition styled (top : Z) (cs : ComputedStyle)
    (parent : option ParentElement) : Node :=
  {| interface := HTMLElement; tagName := Some "DIV"; attributes := [];
     style := Some {[ "inset-block" := ("5px", "") ]};
     data := ""; poster := ""; toDataURL := "";
     value := ""; scrollTop := number top; computedStyle := cs;
     parentElement := parent; assignedNodes := None; shadowRoot := None;
     childNodes := [] |}.

Definition video (src : string) : Node :=
  {| interface := HTMLVideoElement; tagName := Some "VIDEO";
     attributes := [("poster", src)];
     style := Some ∅; data := ""; poster := src; toDataURL := "";
     value := ""; scrollTop := number 0; computedStyle := computed [];
     parentElement := None; assignedNodes := None; shadowRoot := None;
     childNodes := [text "fallback"] |}.

Definition canvas (bitmap : string) : Node :=
  {| interface := HTMLCanvasElement; tagName := Some "CANVAS";
     attributes := [("width", "300")];
     style := Some ∅; data := ""; poster := ""; toDataURL := bitmap;
     value := ""; scrollTop := number 0; computedStyle := computed [];
     parentElement := None; assignedNodes := None; shadowRoot := None;
     childNodes := [] |}.

Definition env : Environment :=
  {| getMimeType := fun url =>
       if JSString.endsWith url ".png" then "image/png" else "";
     resourceToDataURL := fun url contentType _ =>
       if String.eqb url "missing.png" then Rejected "404"
       else Resolved ("data:" ++ contentType ++ ";base64,AAAA");
     clonePseudoElements := fun _ clone => clone;
     window := {| innerHeight := number 900; scrollY := number 100 |};
     parse_cssText := CSSText.parse;
     parse_innerHTML := fun html =>
       if String.eqb html "" then []
       else [ {| c_interface := CharacterData; c_tagName := None;
                 c_attributes := []; c_style := None; c_data := html;
                 c_childNodes := [] |} ] |}.

Definition no_filter : Options := {| filter := None; resourceOptions := "" |}.

(** A predicate that excludes exactly the elements tagged [SCRIPT]. *)
Definition skip_scripts : Options :=
  {| filter := Some (fun n => negb (match tagName n with
                                    | Some t => String.eqb t "SCRIPT"
                                    | None => false
                                    end));
     resourceOptions := "" |}.

(** *** Trees *)

Definition paragraph : Node := element HTMLElement "P" [text "a"].
Definition script : Node := element HTMLElement "SCRIPT" [text "x"].
Definition span : Node := element HTMLElement "SPAN" [].

(** Children [a; b; c] with [b] excluded by [skip_scripts]. *)
Definition article : Node :=
  element HTMLElement "DIV" [paragraph; script; span].

(** A video whose poster cannot be converted, two levels down. *)
Definition gallery : Node :=
  element HTMLElement "DIV"
    [paragraph; element HTMLElement "FIGURE" [video "missing.png"]; span].

(** A slot with projected content and fallback content. *)
Definition slot : Node :=
  {| interface := HTMLElement; tagName := Some "slot"; attributes := [];
     style := Some ∅; data := ""; poster := ""; toDataURL := "";
     value := ""; scrollTop := number 0; computedStyle := computed [];
     parentElement := None;
     assignedNodes := Some [text "projected"];
     shadowRoot := None;
     childNodes := [text "fallback"] |}.

(** A slot nothing is projected into: only its fallback content. *)
Definition unfilled_slot : Node :=
  {| interface := HTMLElement; tagName := Some "SLOT"; attributes := [];
     style := Some ∅; data := ""; poster := ""; toDataURL := "";
     value := ""; scrollTop := number 0; computedStyle := computed [];
     parentElement := None;
     assignedNodes := Some [];
     shadowRoot := None;
     childNodes := [text "fallback"] |}.

(** A custom element: light children, and a shadow tree holding a slot. *)
Definition host : Node :=
  {| interface := HTMLElement; tagName := Some "X-CARD"; attributes := [];
     style := Some ∅; data := ""; poster := ""; toDataURL := "";
     value := ""; scrollTop := number 0; computedStyle := computed [];
     parentElement := None;
     assignedNodes := None;
     shadowRoot := Some [slot];
     childNodes := [text "projected"] |}.

(** *** Styled nodes *)

Definition sized : Node :=
  styled 0 (computed [("color", "red"); ("font-size", "16px")]) None.

(** Scrolled by 40 pixels inside its own box. *)
Definition scrolled : Node :=
  styled 40 (computed [("overflow-y", "auto"); ("top", "auto")]) None.

(** The same node in an engine that serializes computed styles. *)
Definition scrolled_serialized : Node :=
  styled 40
    (serialized "overflow-y: auto; top: auto;"
       [("overflow-y", "auto"); ("top", "auto")])
    None.


(** The same, as tall as the viewport at least: the document body. *)
Definition body : ParentElement :=
  {| p_scrollTop := number 25;
     p_computedStyle := computed [("overflow-y", "scroll");
                                  ("min-height", "900px")] |}.

Definition layout : list (string * string) :=
  [("height", "1200px"); ("inset-block", "5px");
   ("position", "static"); ("top", "auto")].



Definition inside_body : Node :=
  styled 0 (computed layout) (Some body).


(** *** Form controls and further styles *)

Definition field : Node :=
  {| interface := HTMLInputElement; tagName := Some "INPUT";
     attributes := [("type", "text"); ("value", "initial")];
     style := Some ∅; data := ""; poster := ""; toDataURL := "";
     value := "typed"; scrollTop := number 0; computedStyle := computed [];
     parentElement := None; assignedNodes := None; shadowRoot := None;
     childNodes := [] |}.

Definition note : Node :=
  {| interface := HTMLTextAreaElement; tagName := Some "TEXTAREA";
     attributes := []; style := Some ∅; data := ""; poster := "";
     toDataURL := ""; value := "typed"; scrollTop := number 0;
     computedStyle := computed [];
     parentElement := None; assignedNodes := None; shadowRoot := None;
     childNodes := [text "initial"] |}.

Definition chooser : Node :=
  {| interface := HTMLSelectElement; tagName := Some "SELECT";
     attributes := []; style := Some ∅; data := ""; poster := "";
     toDataURL := ""; value := "b"; scrollTop := number 0;
     computedStyle := computed [];
     parentElement := None; assignedNodes := None; shadowRoot := None;
     childNodes := [] |}.

Definition cloned_option (v : string) : Cloned :=
  {| c_interface := HTMLElement; c_tagName := Some "OPTION";
     c_attributes := [("value", v)]; c_style := Some ∅; c_data := "";
     c_childNodes := [] |}.

Definition cloned_text (d : string) : Cloned :=
  {| c_interface := CharacterData; c_tagName := None;
     c_attributes := []; c_style := None; c_data := d;
     c_childNodes := [] |}.

(** The clone of a select whose value [b] occurs twice among its options. *)
Definition cloned_chooser : Cloned :=
  with_childNodes
    [cloned_text " "; cloned_option "a"; cloned_option "b"; cloned_option "b"]
    (shallowClone chooser).

(** The clone of a select none of whose options has the value [b]. *)
Definition cloned_chooser_elsewhere : Cloned :=
  with_childNodes [cloned_option "a"; cloned_option "c"] (shallowClone chooser).

(** Not scrolled, no parent, positioned by hand. *)
Definition plain : Node :=
  styled 0
    (computed [("color", "red"); ("overflow-y", "visible");
               ("position", "absolute"); ("top", "10px")])
    None.

(** An inline declaration the computed style does not enumerate. *)
Definition tinted : Node :=
  {| interface := HTMLElement; tagName := Some "DIV"; attributes := [];
     style := Some {[ "--accent" := ("blue", "") ]};
     data := ""; poster := ""; toDataURL := "";
     value := ""; scrollTop := number 0;
     computedStyle := computed [("color", "red")];
     parentElement := None; assignedNodes := None; shadowRoot := None;
     childNodes := [] |}.


(** Text collapsed to nothing: a computed [font-size] of zero. *)
Definition collapsed : Node :=
  {| interface := HTMLElement; tagName := Some "SPAN"; attributes := [];
     style := Some ∅; data := ""; poster := ""; toDataURL := "";
     value := ""; scrollTop := number 0;
     computedStyle := computed [("color", "red"); ("font-size", "0px")];
     parentElement := None; assignedNodes := None; shadowRoot := None;
     childNodes := [] |}.

(** A serialized computed style with a [transform-origin]. *)
Definition turned_serialized : Node :=
  styled 0
    (serialized "top: auto; transform-origin: 10px 20px;"
       [("top", "auto"); ("transform-origin", "10px 20px")])
    None.

End Sample.

(** * Properties *)

Section Properties.

Context {N : Number}.
Variable env : Environment.

(** ** Promises *)

Lemma then_resolved {A B} (t : list Event) (a : A) (f : A -> Promise B) :
  then_ (t, Resolved a) f = ((t ++ trace (f a))%list, outcome (f a)).
Proof. unfold then_, trace, outcome. destruct (f a); reflexivity. Qed.

Lemma then_rejected {A B} (t : list Event) e (f : A -> Promise B) :
  then_ (t, Rejected e) f = (t, Rejected e).
Proof. reflexivity. Qed.

Lemma then_resolve {A B} (a : A) (f : A -> Promise B) :
  then_ (resolve a) f = f a.
Proof.
  unfold resolve. rewrite then_resolved. simpl.
  unfold trace, outcome. destruct (f a); reflexivity.
Qed.

Lemma outcome_then_inv {A B} (p : Promise A) (f : A -> Promise B) b :
  outcome (then_ p f) = Resolved b ->
  exists a, outcome p = Resolved a /\ outcome (f a) = Resolved b.
Proof.
  destruct p as [t [a | e]].
  - rewrite then_resolved. simpl. intros H. exists a. split; [reflexivity | exact H].
  - rewrite then_rejected. simpl. discriminate.
Qed.

Lemma trace_then_in {A B} (p : Promise A) (f : A -> Promise B) ev :
  In ev (trace (then_ p f)) ->
  In ev (trace p) \/
  exists a, outcome p = Resolved a /\ In ev (trace (f a)).
Proof.
  destruct p as [t [a | e]].
  - rewrite then_resolved. simpl. intros H.
    apply in_app_or in H as [H | H]; [left; exact H | right].
    exists a. split; [reflexivity | exact H].
  - rewrite then_rejected. simpl. intros H. left. exact H.
Qed.

(** ** Unfolding the entry point *)

Lemma cloneNode_unfold node options isRoot :
  cloneNode env node options isRoot =
  await_ emit (EvCloneNode node isRoot);
  await skip <- (if isRoot then resolve false else excluded node options);
  if skip then resolve None
  else
    await clonedNode <- cloneSingleNode env node options;
    await clonedNode <- cloneChildren env node clonedNode options;
    resolve (Some (decorate env node clonedNode)).
Proof. destruct node; reflexivity. Qed.

Lemma cloneChildren_unfold nativeNode clonedNode options :
  cloneChildren env nativeNode clonedNode options =
  if (length (children nativeNode) =? 0)%nat
     || Interface_eqb (interface nativeNode) HTMLVideoElement
  then resolve clonedNode
  else fold_left (attach env options) (children nativeNode)
         (resolve clonedNode).
Proof. reflexivity. Qed.

Lemma attach_rejected options l t e :
  fold_left (attach env options) l (t, Rejected e) = (t, Rejected e).
Proof. induction l as [| c l IH]; simpl; [reflexivity | exact IH]. Qed.

Lemma attach_step options t x child :
  attach env options (t, Resolved x) child =
  ((t ++ trace (cloneNode env child options false))%list,
   match outcome (cloneNode env child options false) with
   | Resolved (Some c) => Resolved (appendChild x c)
   | Resolved None => Resolved x
   | Rejected e => Rejected e
   end).
Proof.
  unfold attach, cloneChildren_each. rewrite then_resolved.
  destruct (cloneNode env child options false) as [t' [[c |] | e]];
    simpl; rewrite ?app_nil_r; reflexivity.
Qed.

Lemma with_childNodes_id (c : Cloned) :
  with_childNodes (c_childNodes c ++ []) c = c.
Proof. destruct c; unfold with_childNodes; simpl. rewrite app_nil_r. reflexivity. Qed.

Lemma Interface_eqb_eq a b : Interface_eqb a b = true <-> a = b.
Proof. destruct a, b; simpl; split; intros H; congruence. Qed.

Lemma Interface_eqb_neq a b : Interface_eqb a b = false <-> a <> b.
Proof. destruct a, b; simpl; split; intros H; congruence. Qed.

(** ** The inclusion predicate *)

(** C1: for a node that is not the root, when the inclusion predicate
    exists and returns false for it, [cloneNode] resolves to [null] at
    once.  The whole run consists of entering the call and consulting the
    predicate about that node: [cloneNode] is invoked on no descendant,
    nothing is serialized or converted, and no clone is built. *)
Theorem excluded_node_yields_null node options f :
  filter options = Some f ->
  f node = false ->
  cloneNode env node options false =
    ([EvCloneNode node false; EvFilter node], Resolved None).
Proof.
  intros Hf Hn. rewrite cloneNode_unfold.
  unfold excluded, emit. rewrite Hf.
  rewrite !then_resolved. simpl. rewrite Hn. reflexivity.
Qed.

(** ** Child traversal *)

Lemma attach_all options l :
  Forall (fun child => resolves (cloneNode env child options false)) l ->
  forall t x,
    fold_left (attach env options) l (t, Resolved x) =
      ((t ++ concat (map (fun child =>
                            trace (cloneNode env child options false)) l))%list,
       Resolved (with_childNodes
                   (c_childNodes x ++ omap (clone_of env options) l) x)).
Proof.
  induction 1 as [| child l [r Hr] _ IH]; intros t x.
  - simpl. rewrite app_nil_r, with_childNodes_id. reflexivity.
  - assert (Hc : clone_of env options child = r)
      by (unfold clone_of; rewrite Hr; destruct r; reflexivity).
    cbn [fold_left]. rewrite attach_step, Hr.
    cbn [map concat]. simpl omap. rewrite Hc.
    destruct r as [c |]; rewrite IH, <- app_assoc.
    + f_equal. f_equal. destruct x; unfold with_childNodes, appendChild.
      cbn. rewrite <- app_assoc. reflexivity.
    + reflexivity.
Qed.

(** The traversal stops at the first child whose clone is rejected: the
    later siblings are not started. *)
Lemma attach_until_rejection options before child after reason :
  Forall (fun c => resolves (cloneNode env c options false)) before ->
  outcome (cloneNode env child options false) = Rejected reason ->
  forall t x,
    fold_left (attach env options) (before ++ child :: after) (t, Resolved x) =
      ((t ++ concat (map (fun c => trace (cloneNode env c options false))
                       (before ++ [child])))%list,
       Rejected reason).
Proof.
  intros Hall Hrej t x. rewrite fold_left_app, (attach_all options before Hall).
  cbn [fold_left]. rewrite attach_step, Hrej, attach_rejected.
  rewrite map_app, concat_app. cbn [map concat].
  rewrite app_nil_r, <- app_assoc. reflexivity.
Qed.

(** C2: the children appended by [cloneChildren] are the clones of the
    effective children, taken one after the other in their original order
    by non-root [cloneNode] calls; a child whose clone is [null] adds
    nothing, so the remaining clones stay contiguous and in order.  The run
    is the concatenation of the children's runs, in the same order. *)
Theorem cloneChildren_preserves_order nativeNode clonedNode options :
  interface nativeNode <> HTMLVideoElement ->
  Forall (fun child => resolves (cloneNode env child options false))
    (children nativeNode) ->
  outcome (cloneChildren env nativeNode clonedNode options) =
    Resolved (with_childNodes
                (c_childNodes clonedNode
                 ++ omap (clone_of env options) (children nativeNode))
                clonedNode)
  /\ trace (cloneChildren env nativeNode clonedNode options) =
     concat (map (fun child => trace (cloneNode env child options false))
               (children nativeNode)).
Proof.
  intros Hvideo Hall. rewrite cloneChildren_unfold.
  apply Interface_eqb_neq in Hvideo. rewrite Hvideo, orb_false_r.
  destruct (children nativeNode) as [| c l] eqn:Hc.
  - simpl. rewrite with_childNodes_id. split; reflexivity.
  - cbn [length Nat.eqb]. unfold resolve.
    rewrite (attach_all options (c :: l) Hall). split; reflexivity.
Qed.

(** C7, amended: the list [cloneChildren] works on is, in this order of
    priority, the list returned by [assignedNodes] when the node is a
    slot-type element that has this method, whether the list is empty or
    not; else the children of the shadow root when there is one; else the
    node's own children.  Nothing is traversed for a video node, and an
    empty list gives the clone back with no work done. *)
Theorem effective_children_priority nativeNode :
  (forall assigned,
      isSlotElement nativeNode = true ->
      assignedNodes nativeNode = Some assigned ->
      children nativeNode = assigned)
  /\ (forall root,
        isSlotElement nativeNode = false \/ assignedNodes nativeNode = None ->
        shadowRoot nativeNode = Some root ->
        children nativeNode = root)
  /\ (isSlotElement nativeNode = false \/ assignedNodes nativeNode = None ->
      shadowRoot nativeNode = None ->
      children nativeNode = childNodes nativeNode)
  /\ (forall clonedNode options,
        interface nativeNode = HTMLVideoElement ->
        cloneChildren env nativeNode clonedNode options =
          ([], Resolved clonedNode))
  /\ (forall clonedNode options,
        children nativeNode = [] ->
        cloneChildren env nativeNode clonedNode options =
          ([], Resolved clonedNode)).
Proof.
  unfold children, toArray. repeat split.
  - intros assigned Hs Ha. rewrite Hs, Ha. reflexivity.
  - intros root Hor Hr. rewrite Hr.
    destruct Hor as [H | H]; rewrite H;
      [| destruct (isSlotElement nativeNode)]; reflexivity.
  - intros Hor Hr. rewrite Hr.
    destruct Hor as [H | H]; rewrite H;
      [| destruct (isSlotElement nativeNode)]; reflexivity.
  - intros clonedNode options Hv. rewrite cloneChildren_unfold, Hv.
    simpl. rewrite orb_true_r. reflexivity.
  - intros clonedNode options He. rewrite cloneChildren_unfold.
    unfold children, toArray. rewrite He. reflexivity.
Qed.

(** A slot-type element whose list of assigned nodes is empty is not
    traversed at all: its own children (the fallback content) are not the
    effective children. *)
Lemma unfilled_slot_is_not_traversed nativeNode clonedNode options :
  isSlotElement nativeNode = true ->
  assignedNodes nativeNode = Some [] ->
  cloneChildren env nativeNode clonedNode options = ([], Resolved clonedNode).
Proof.
  intros Hs Ha. rewrite cloneChildren_unfold.
  unfold children, toArray. rewrite Hs, Ha. reflexivity.
Qed.

(** ** Canvas *)


(** ** Induction on the effective children *)

Lemma node_size_unfold (n : Node) :
  node_size n =
  S (sum_sizes node_size (childNodes n)
     + match shadowRoot n with
       | Some l => sum_sizes node_size l
       | None => 0
       end
     + match assignedNodes n with
       | Some l => sum_sizes node_size l
       | None => 0
       end).
Proof. destruct n; reflexivity. Qed.

Lemma sum_sizes_In (c : Node) l :
  In c l -> node_size c <= sum_sizes node_size l.
Proof.
  induction l as [| x l IH]; simpl; intros H; [contradiction |].
  destruct H as [-> | H]; [lia | apply IH in H; lia].
Qed.

Lemma children_smaller (n c : Node) :
  In c (children n) -> node_size c < node_size n.
Proof.
  unfold children, toArray. intros H. rewrite (node_size_unfold n).
  destruct (isSlotElement n), (assignedNodes n), (shadowRoot n);
    apply sum_sizes_In in H; lia.
Qed.

Lemma Node_children_ind (P : Node -> Prop) :
  (forall n, (forall c, In c (children n) -> P c) -> P n) ->
  forall n, P n.
Proof.
  intros step n.
  remember (node_size n) as k eqn:Hk.
  revert n Hk. induction k as [k IH] using lt_wf_ind. intros n ->.
  apply step. intros c Hc. apply (IH (node_size c)); [| reflexivity].
  apply children_smaller, Hc.
Qed.

(** ** Where the events of a run come from *)

Lemma attach_unfold options deferred child :
  attach env options deferred child =
  await clonedNode <- deferred;
  await clonedChild <- cloneNode env child options false;
  resolve (match clonedChild with
           | Some clonedChild => appendChild clonedNode clonedChild
           | None => clonedNode
           end).
Proof. reflexivity. Qed.

Lemma trace_attach_in options deferred child ev :
  In ev (trace (attach env options deferred child)) ->
  In ev (trace deferred) \/ In ev (trace (cloneNode env child options false)).
Proof.
  rewrite attach_unfold. intros H.
  apply trace_then_in in H as [H | (x & _ & H)]; [left; exact H | right].
  apply trace_then_in in H as [H | (r & _ & H)]; [exact H | contradiction].
Qed.

Lemma trace_fold_in options l : forall deferred ev,
  In ev (trace (fold_left (attach env options) l deferred)) ->
  In ev (trace deferred) \/
  exists child, In child l /\ In ev (trace (cloneNode env child options false)).
Proof.
  induction l as [| c l IH]; intros deferred ev H; [left; exact H |].
  cbn [fold_left] in H. apply IH in H as [H | (child & Hin & H)].
  - apply trace_attach_in in H as [H | H]; [left; exact H | right].
    exists c. split; [left; reflexivity | exact H].
  - right. exists child. split; [right; exact Hin | exact H].
Qed.

Lemma trace_cloneChildren_in nativeNode clonedNode options ev :
  In ev (trace (cloneChildren env nativeNode clonedNode options)) ->
  exists child, In child (children nativeNode)
                /\ In ev (trace (cloneNode env child options false)).
Proof.
  rewrite cloneChildren_unfold.
  destruct (_ || _); [contradiction |].
  intros H. apply trace_fold_in in H as [H | H]; [contradiction | exact H].
Qed.

Lemma trace_cloneSingleNode_in node options ev :
  In ev (trace (cloneSingleNode env node options)) ->
  ev = EvToDataURL node
  \/ ev = EvResource (poster node) (getMimeType env (poster node)).
Proof.
  unfold cloneSingleNode, cloneCanvasElement, cloneVideoElement, emit.
  destruct (Interface_eqb (interface node) HTMLCanvasElement).
  - rewrite then_resolved.
    destruct (String.eqb _ _); simpl; intros [H | []]; left; congruence.
  - destruct (_ && _); [| contradiction].
    intros H. apply trace_then_in in H as [[H | []] | (a & _ & [])].
    right. congruence.
Qed.

(** The events of a [cloneNode] run: entering the call, consulting the
    predicate unless the node is the root, then the events of the node's
    own clone and of its children's runs. *)
Lemma trace_cloneNode_in node options isRoot ev :
  In ev (trace (cloneNode env node options isRoot)) ->
  ev = EvCloneNode node isRoot
  \/ (isRoot = false /\ ev = EvFilter node)
  \/ In ev (trace (cloneSingleNode env node options))
  \/ exists child, In child (children node)
                   /\ In ev (trace (cloneNode env child options false)).
Proof.
  rewrite cloneNode_unfold. intros H.
  apply trace_then_in in H as [[H | []] | (_ & _ & H)]; [left; congruence |].
  apply trace_then_in in H as [H | (skip & _ & H)].
  - destruct isRoot; [contradiction |]. unfold excluded in H.
    destruct (filter options); [| contradiction].
    apply trace_then_in in H as [[H | []] | (_ & _ & [])].
    right. left. split; [reflexivity | congruence].
  - destruct skip; [contradiction |].
    apply trace_then_in in H as [H | (shape & _ & H)]; [auto |].
    apply trace_then_in in H as [H | (full & _ & [])].
    right. right. right. eapply trace_cloneChildren_in, H.
Qed.

Lemma cloneNode_stays_within options : forall node isRoot,
  stays_within (node_size node) (cloneNode env node options isRoot).
Proof.
  intros node. induction node as [node IH] using Node_children_ind.
  intros isRoot. apply List.Forall_forall. intros ev Hev.
  apply trace_cloneNode_in in Hev
    as [-> | [[_ ->] | [Hev | (child & Hin & Hev)]]].
  - unfold event_within. simpl. lia.
  - unfold event_within. simpl. lia.
  - apply trace_cloneSingleNode_in in Hev as [-> | ->];
      unfold event_within; simpl; [lia | exact I].
  - pose proof (IH child Hin false) as Hc.
    eapply List.Forall_forall in Hc; [| exact Hev].
    apply children_smaller in Hin. unfold event_within in *.
    destruct (event_node ev); [lia | exact I].
Qed.

(** ** The root *)

(** C10: with [isRoot] true the inclusion predicate is never consulted
    about that node, whatever the predicate is, and the call never
    resolves to [null]: it is either rejected or resolves to the fully
    built clone (own clone, children attached, decorated). *)
Theorem root_is_never_filtered root options :
  ~ consults (cloneNode env root options true) root
  /\ outcome (cloneNode env root options true) <> Resolved None
  /\ ((exists reason,
         outcome (cloneNode env root options true) = Rejected reason)
      \/ (exists shape full,
            outcome (cloneSingleNode env root options) = Resolved shape
            /\ outcome (cloneChildren env root shape options) = Resolved full
            /\ outcome (cloneNode env root options true) =
                  Resolved (Some (decorate env root full)))).
Proof.
  assert (Hfinal :
    (exists reason,
        outcome (cloneNode env root options true) = Rejected reason)
    \/ (exists shape full,
          outcome (cloneSingleNode env root options) = Resolved shape
          /\ outcome (cloneChildren env root shape options) = Resolved full
          /\ outcome (cloneNode env root options true) =
                Resolved (Some (decorate env root full)))).
  { rewrite cloneNode_unfold. unfold emit.
    rewrite then_resolved. cbn [outcome snd].
    rewrite then_resolve.
    destruct (cloneSingleNode env root options) as [t1 [shape | e]];
      [| left; exists e; reflexivity].
    rewrite then_resolved. cbn [outcome snd].
    destruct (cloneChildren env root shape options) as [t2 [full | e]] eqn:Hch;
      [| left; exists e; reflexivity].
    right. exists shape, full. rewrite Hch. repeat split. }
  split; [| split; [| exact Hfinal]].
  - unfold consults. intros Hev.
    apply trace_cloneNode_in in Hev
      as [Hev | [[Hev _] | [Hev | (child & Hin & Hev)]]];
      try discriminate.
    + apply trace_cloneSingleNode_in in Hev as [Hev | Hev]; discriminate.
    + pose proof (cloneNode_stays_within options child false) as Hc.
      eapply List.Forall_forall in Hc; [| exact Hev].
      apply children_smaller in Hin. unfold event_within in Hc.
      simpl in Hc. lia.
  - destruct Hfinal as [[reason H] | (shape & full & _ & _ & H)];
      rewrite H; discriminate.
Qed.

(** ** Rejections *)

Section Rejection.

Variables (options : Options) (url contentType reason : string).
Hypothesis conversion_fails :
  resourceToDataURL env url contentType options = Rejected reason.

Lemma fails_with_then {A B} (p : Promise A) (f : A -> Promise B) :
  fails_with url contentType reason p ->
  (forall a, fails_with url contentType reason (f a)) ->
  fails_with url contentType reason (then_ p f).
Proof.
  unfold fails_with, attempts. intros Hp Hf.
  destruct p as [t [a | e]].
  - rewrite then_resolved. cbn [trace outcome fst snd]. intros H.
    apply in_app_or in H as [H | H].
    + specialize (Hp H). discriminate.
    + apply (Hf a H).
  - rewrite then_rejected. cbn [trace outcome fst snd] in *.
    intros H. specialize (Hp H). congruence.
Qed.

Lemma fails_with_silent {A} (a : A) :
  fails_with url contentType reason (resolve a).
Proof. intros []. Qed.

Lemma fails_with_cloneSingleNode node :
  fails_with url contentType reason (cloneSingleNode env node options).
Proof.
  unfold cloneSingleNode, cloneCanvasElement, cloneVideoElement, emit.
  destruct (Interface_eqb (interface node) HTMLCanvasElement).
  - intros H. unfold attempts in H. rewrite then_resolved in H.
    destruct (String.eqb _ _); simpl in H; destruct H as [H | []];
      discriminate.
  - destruct (_ && _); [| apply fails_with_silent].
    apply fails_with_then; [| intros a; apply fails_with_silent].
    intros [H | []]. injection H as -> ->.
    cbn [outcome snd]. exact conversion_fails.
Qed.

Lemma fails_with_fold l : forall deferred,
  fails_with url contentType reason deferred ->
  (forall child, In child l ->
     fails_with url contentType reason (cloneNode env child options false)) ->
  fails_with url contentType reason
    (fold_left (attach env options) l deferred).
Proof.
  induction l as [| c l IH]; intros deferred Hd Hl; [exact Hd |].
  cbn [fold_left]. apply IH.
  - rewrite attach_unfold. apply fails_with_then; [exact Hd |].
    intros x. apply fails_with_then; [apply Hl; left; reflexivity |].
    intros r. apply fails_with_silent.
  - intros child Hin. apply Hl. right. exact Hin.
Qed.

Lemma fails_with_cloneNode : forall node isRoot,
  fails_with url contentType reason (cloneNode env node options isRoot).
Proof.
  intros node. induction node as [node IH] using Node_children_ind.
  intros isRoot. rewrite cloneNode_unfold.
  apply fails_with_then; [intros [H | []]; discriminate |]. intros _.
  apply fails_with_then.
  { destruct isRoot; [apply fails_with_silent |]. unfold excluded.
    destruct (filter options); [| apply fails_with_silent].
    apply fails_with_then; [intros [H | []]; discriminate |].
    intros _. apply fails_with_silent. }
  intros [|]; [apply fails_with_silent |].
  apply fails_with_then; [apply fails_with_cloneSingleNode |].
  intros shape. apply fails_with_then; [| intros; apply fails_with_silent].
  rewrite cloneChildren_unfold.
  destruct (_ || _); [apply fails_with_silent |].
  apply fails_with_fold; [apply fails_with_silent |].
  intros child Hin. apply IH, Hin.
Qed.

End Rejection.

(** What a run attempted is attempted by the run of the enclosing call. *)

Lemma trace_then_l {A B} (p : Promise A) (f : A -> Promise B) ev :
  In ev (trace p) -> In ev (trace (then_ p f)).
Proof.
  destruct p as [t [a | e]]; [| intros H; exact H].
  rewrite then_resolved. cbn [trace fst]. intros H.
  apply in_or_app. left. exact H.
Qed.

Lemma trace_then_r {A B} (p : Promise A) (f : A -> Promise B) a ev :
  outcome p = Resolved a -> In ev (trace (f a)) -> In ev (trace (then_ p f)).
Proof.
  destruct p as [t [a' | e]]; cbn [outcome snd]; intros Ha; [| discriminate].
  injection Ha as ->. rewrite then_resolved. cbn [trace fst]. intros H.
  apply in_or_app. right. exact H.
Qed.

Lemma trace_fold_l options l : forall deferred ev,
  In ev (trace deferred) ->
  In ev (trace (fold_left (attach env options) l deferred)).
Proof.
  induction l as [| c l IH]; intros deferred ev H; [exact H |].
  cbn [fold_left]. apply IH. rewrite attach_unfold.
  apply trace_then_l, H.
Qed.

Lemma enclosing_call_attempts node isRoot options before child after
    url contentType :
  (isRoot = true \/ filter options = None
   \/ exists f, filter options = Some f /\ f node = true) ->
  resolves (cloneSingleNode env node options) ->
  interface node <> HTMLVideoElement ->
  children node = (before ++ child :: after)%list ->
  Forall (fun c => resolves (cloneNode env c options false)) before ->
  attempts (cloneNode env child options false) url contentType ->
  attempts (cloneNode env node options isRoot) url contentType.
Proof.
  intros Hgate [shape Hshape] Hvideo Hchildren Hbefore Hchild.
  unfold attempts in *. rewrite cloneNode_unfold.
  eapply trace_then_r; [reflexivity |].
  assert (Hskip : outcome (if isRoot then resolve false
                           else excluded node options) = Resolved false).
  { destruct Hgate as [-> | [Hnone | (f & Hf & Hn)]]; [reflexivity | |];
      (destruct isRoot; [reflexivity |]); unfold excluded.
    - rewrite Hnone. reflexivity.
    - rewrite Hf. unfold emit. rewrite then_resolved, Hn. reflexivity. }
  eapply trace_then_r; [exact Hskip |]. cbv iota.
  eapply trace_then_r; [exact Hshape |].
  apply trace_then_l. rewrite cloneChildren_unfold, Hchildren.
  apply Interface_eqb_neq in Hvideo. rewrite Hvideo, orb_false_r.
  replace (length (before ++ child :: after) =? 0)%nat with false
    by (symmetry; apply Nat.eqb_neq; rewrite length_app; simpl; lia).
  rewrite fold_left_app. cbn [fold_left]. apply trace_fold_l.
  unfold resolve. rewrite (attach_all options before Hbefore), attach_step.
  cbn [trace fst]. apply in_or_app. right. exact Hchild.
Qed.

Lemma attemptsb_attempts {A} (p : Promise A) url contentType :
  attemptsb p url contentType = true -> attempts p url contentType.
Proof.
  unfold attemptsb, attempts. intros H.
  apply existsb_exists in H as (e & Hin & He).
  destruct e as [| | | u c]; try discriminate.
  apply andb_true_iff in He as [Hu Hc].
  apply String.eqb_eq in Hu, Hc. subst. exact Hin.
Qed.

(** C9: when the conversion of a video poster is rejected, nothing in the
    pipeline catches it.  [cloneVideoElement] is rejected, and so is every
    [cloneNode] call whose run attempted that conversion, that is the call
    on the video and the calls on all its enclosing ancestors (see
    [enclosing_call_attempts]), with the same reason: no clone, partial or
    not, is delivered. *)
Theorem poster_rejection_is_not_caught video options reason :
  resourceToDataURL env (poster video) (getMimeType env (poster video))
    options = Rejected reason ->
  outcome (cloneVideoElement env video options) = Rejected reason
  /\ forall node isRoot,
       attempts (cloneNode env node options isRoot)
         (poster video) (getMimeType env (poster video)) ->
       outcome (cloneNode env node options isRoot) = Rejected reason.
Proof.
  intros Hfail. split.
  - unfold cloneVideoElement. rewrite Hfail. reflexivity.
  - intros node isRoot. eapply fails_with_cloneNode, Hfail.
Qed.

(** ** Style replication: one property at a time *)

(** The callback never reads the target: the committed value depends on
    the source only, and the target changes by losing [inset-block] when
    [top] is rewritten by either scroll correction. *)
Lemma cloneCSSStyle_value_split node cs parent (s : Style) name :
  cloneCSSStyle_value env node cs parent s name =
  (fst (cloneCSSStyle_value env node cs parent ∅ name),
   if String.eqb name "top"
      && match parent with
         | Some p => parentScrolling p || bodyScrolling env cs (p_computedStyle p)
         | None => false
         end
   then removeProperty "inset-block" s else s).
Proof.
  unfold cloneCSSStyle_value, removeProperty.
  destruct parent as [p |]; [| rewrite andb_false_r; reflexivity].
  destruct (String.eqb_spec name "position") as [-> | Hpos];
    [change (String.eqb "position" "top") with false |
     destruct (String.eqb name "top")];
    destruct (parentScrolling p), (bodyScrolling env cs (p_computedStyle p));
    cbn; rewrite ?delete_delete_eq; reflexivity.
Qed.

(** What [setProperty] does to the block. *)

Lemma setProperty_other name value priority (s : Style) k :
  k <> name -> setProperty name value priority s !! k = s !! k.
Proof.
  intros Hk. unfold setProperty, removeProperty.
  destruct (String.eqb value ""); [apply lookup_delete_ne; congruence |].
  destruct (negb (CSS.priority_ok priority)); [reflexivity |].
  destruct (CSS.refused name value); [reflexivity |].
  apply lookup_insert_ne. congruence.
Qed.

Lemma setProperty_stored name value priority (s : Style) :
  value <> "" ->
  CSS.priority_ok priority = true ->
  CSS.refused name value = false ->
  setProperty name value priority s !! name = Some (value, priority).
Proof.
  intros Hv Hp Hr. unfold setProperty.
  apply String.eqb_neq in Hv. rewrite Hv, Hp, Hr. apply lookup_insert_eq.
Qed.

Lemma setProperty_refused name value priority (s : Style) :
  value <> "" ->
  CSS.refused name value = true ->
  setProperty name value priority s = s.
Proof.
  intros Hv Hr. unfold setProperty.
  apply String.eqb_neq in Hv. rewrite Hv, Hr.
  destruct (negb (CSS.priority_ok priority)); reflexivity.
Qed.


(** What a computed style hands out. *)

Lemma declaration_of_In name l :
  In name (map fst l) -> exists d, declaration_of name l = Some d /\ In (name, d) l.
Proof.
  induction l as [| [k d] l IH]; simpl; [contradiction |].
  destruct (String.eqb_spec k name) as [-> | Hk].
  - intros _. exists d. split; [reflexivity | left; reflexivity].
  - intros [H | H]; [contradiction |].
    destruct (IH H) as (d' & Hd & Hin). exists d'. split; [exact Hd | right; exact Hin].
Qed.

Lemma enumerated_value cs name :
  In name (cs_names cs) -> getPropertyValue cs name <> "".
Proof.
  unfold cs_names, getPropertyValue. intros H.
  apply declaration_of_In in H as ([v i] & -> & Hin).
  unfold declarations in Hin. apply filter_In in Hin as [_ Hv].
  cbn in Hv. apply negb_true_iff, String.eqb_neq in Hv. exact Hv.
Qed.

Lemma source_priority_ok cs name :
  CSS.priority_ok (getPropertyPriority cs name) = true.
Proof.
  unfold getPropertyPriority.
  destruct (declaration_of name (declarations cs)) as [[v [|]] |]; reflexivity.
Qed.

(** The callback on the property it is called for, and on the others. *)

Lemma each_lookup_same node cs parent (s : Style) name v :
  fst (cloneCSSStyle_value env node cs parent ∅ name) = v ->
  v <> "" ->
  CSS.refused name v = false ->
  cloneCSSStyle_each env node cs parent s name !! name =
  Some (v, getPropertyPriority cs name).
Proof.
  intros Hv Hne Hr. unfold cloneCSSStyle_each.
  rewrite cloneCSSStyle_value_split, Hv.
  apply setProperty_stored; [exact Hne | apply source_priority_ok | exact Hr].
Qed.

Lemma each_lookup_other node cs parent (s : Style) name k :
  k <> name -> k <> "inset-block" ->
  cloneCSSStyle_each env node cs parent s name !! k = s !! k.
Proof.
  intros Hk Hi. unfold cloneCSSStyle_each.
  rewrite cloneCSSStyle_value_split, setProperty_other by exact Hk.
  unfold removeProperty.
  destruct (_ && _); [apply lookup_delete_ne; congruence | reflexivity].
Qed.

Lemma each_refused node cs parent (s : Style) name :
  name <> "top" ->
  fst (cloneCSSStyle_value env node cs parent ∅ name) <> "" ->
  CSS.refused name (fst (cloneCSSStyle_value env node cs parent ∅ name)) = true ->
  cloneCSSStyle_each env node cs parent s name = s.
Proof.
  intros Hn Hne Hr. unfold cloneCSSStyle_each.
  rewrite cloneCSSStyle_value_split.
  apply String.eqb_neq in Hn. rewrite Hn. cbn [andb].
  apply setProperty_refused; assumption.
Qed.

Lemma each_keeps_inset_block_out node cs parent (s : Style) name :
  name <> "inset-block" ->
  s !! "inset-block" = None ->
  cloneCSSStyle_each env node cs parent s name !! "inset-block" = None.
Proof.
  intros Hn Hs. unfold cloneCSSStyle_each.
  rewrite cloneCSSStyle_value_split, setProperty_other by congruence.
  unfold removeProperty.
  destruct (_ && _); [| exact Hs].
  apply lookup_delete_eq.
Qed.

Lemma each_top_strips_inset_block node cs p (s : Style) :
  parentScrolling p || bodyScrolling env cs (p_computedStyle p) = true ->
  cloneCSSStyle_each env node cs (Some p) s "top" !! "inset-block" = None.
Proof.
  intros Hfire. unfold cloneCSSStyle_each.
  rewrite cloneCSSStyle_value_split. rewrite Hfire.
  change (String.eqb "top" "top" && true) with true. cbv iota.
  rewrite setProperty_other by discriminate.
  apply lookup_delete_eq.
Qed.

(** ** Style replication: the whole enumeration *)

Lemma fold_lookup_absent node cs parent names : forall (s : Style) k,
  ~ In k names -> k <> "inset-block" ->
  fold_left (cloneCSSStyle_each env node cs parent) names s !! k = s !! k.
Proof.
  induction names as [| x names IH]; intros s k Hk Hi; [reflexivity |].
  cbn [fold_left]. rewrite IH.
  - apply each_lookup_other; [| exact Hi].
    intros ->. apply Hk. left. reflexivity.
  - intros H. apply Hk. right. exact H.
  - exact Hi.
Qed.

(** Every enumerated property other than [inset-block] ends up on the
    target with the value the callback committed for it, when the block
    takes that value. *)
Lemma fold_lookup_present node cs parent names : forall (s : Style) k v,
  In k names -> k <> "inset-block" ->
  fst (cloneCSSStyle_value env node cs parent ∅ k) = v ->
  v <> "" ->
  CSS.refused k v = false ->
  fold_left (cloneCSSStyle_each env node cs parent) names s !! k =
  Some (v, getPropertyPriority cs k).
Proof.
  induction names as [| x names IH]; intros s k v Hk Hi Hv Hne Hr;
    [contradiction |].
  cbn [fold_left].
  destruct (in_dec string_dec k names) as [Hin | Hout].
  - apply IH; assumption.
  - destruct Hk as [-> | Hk]; [| contradiction].
    rewrite fold_lookup_absent by assumption.
    apply each_lookup_same; assumption.
Qed.

(** A property whose committed value the block refuses is left as it was,
    however often it is enumerated. *)
Lemma fold_lookup_refused node cs parent names : forall (s : Style) k,
  k <> "inset-block" -> k <> "top" ->
  fst (cloneCSSStyle_value env node cs parent ∅ k) <> "" ->
  CSS.refused k (fst (cloneCSSStyle_value env node cs parent ∅ k)) = true ->
  fold_left (cloneCSSStyle_each env node cs parent) names s !! k = s !! k.
Proof.
  induction names as [| x names IH]; intros s k Hi Ht Hne Hr; [reflexivity |].
  cbn [fold_left]. rewrite IH by assumption.
  destruct (string_dec k x) as [<- | Hx].
  - rewrite each_refused by assumption. reflexivity.
  - apply each_lookup_other; assumption.
Qed.

Lemma fold_keeps_inset_block_out node cs parent names : forall (s : Style),
  ~ In "inset-block" names ->
  s !! "inset-block" = None ->
  fold_left (cloneCSSStyle_each env node cs parent) names s
    !! "inset-block" = None.
Proof.
  induction names as [| x names IH]; intros s Hn Hs; [exact Hs |].
  cbn [fold_left]. apply IH.
  - intros H. apply Hn. right. exact H.
  - apply each_keeps_inset_block_out; [| exact Hs].
    intros ->. apply Hn. left. reflexivity.
Qed.

(** The per-property path of [cloneCSSStyle]. *)
Lemma cloneCSSStyle_per_property nativeNode clonedNode (targetStyle : Style) :
  c_style clonedNode = Some targetStyle ->
  cssText (computedStyle nativeNode) = "" ->
  c_style (cloneCSSStyle env nativeNode clonedNode) =
  Some (fold_left
          (cloneCSSStyle_each env nativeNode (computedStyle nativeNode)
             (parentElement nativeNode))
          (cs_names (computedStyle nativeNode)) targetStyle).
Proof.
  intros Hs Ht. unfold cloneCSSStyle, toArray. rewrite Hs, Ht. reflexivity.
Qed.

(** ** The committed values *)

Lemma autoOrScroll_true v : autoOrScroll v = true <-> v = "auto" \/ v = "scroll".
Proof.
  unfold autoOrScroll. rewrite orb_true_iff, !String.eqb_eq. reflexivity.
Qed.


Lemma bodyScrolling_true cs ps :
  bodyScrolling env cs ps = true <->
  position cs <> "fixed"
  /\ minHeight ps = num_toString (innerHeight (window env)) ++ "px"
  /\ num_lt (parseInt (JSString.replace (minHeight ps) "px" ""))
            (parseInt (JSString.replace (height cs) "px" "")) = true.
Proof.
  unfold bodyScrolling.
  rewrite !andb_true_iff, negb_true_iff, String.eqb_neq, String.eqb_eq.
  tauto.
Qed.


Lemma value_font_size node cs parent :
  fst (cloneCSSStyle_value env node cs parent ∅ "font-size") =
  let value := getPropertyValue cs "font-size" in
  if JSString.endsWith value "px" then
    num_toString
      (num_sub
         (Math_floor
            (parseFloat (String.substring 0 (String.length value - 2) value)))
         num_0_1) ++ "px"
  else value.
Proof.
  unfold cloneCSSStyle_value.
  destruct (num_gt (scrollTop node) num_0), (autoOrScroll (overflowY cs)),
    (JSString.endsWith (getPropertyValue cs "font-size") "px");
    (destruct parent as [p |];
     [destruct (parentScrolling p), (bodyScrolling env cs (p_computedStyle p)) |]);
    reflexivity.
Qed.

Lemma value_overflow_y node cs parent :
  num_gt (scrollTop node) num_0 = true ->
  autoOrScroll (overflowY cs) = true ->
  fst (cloneCSSStyle_value env node cs parent ∅ "overflow-y") = "hidden".
Proof.
  intros Hs Ho. unfold cloneCSSStyle_value. rewrite Hs, Ho.
  destruct parent as [p |];
    [destruct (parentScrolling p), (bodyScrolling env cs (p_computedStyle p)) |];
    reflexivity.
Qed.


Lemma value_position node cs p :
  parentScrolling p || bodyScrolling env cs (p_computedStyle p) = true ->
  fst (cloneCSSStyle_value env node cs (Some p) ∅ "position") = "relative".
Proof.
  unfold cloneCSSStyle_value.
  destruct (num_gt (scrollTop node) num_0), (autoOrScroll (overflowY cs)),
    (parentScrolling p), (bodyScrolling env cs (p_computedStyle p));
    (reflexivity || discriminate).
Qed.

Lemma append_px_nonempty (a : string) : a ++ "px" <> "".
Proof. destruct a; discriminate. Qed.


(** ** The corrections *)

(** X22: in the per-property path, a computed [font-size] that does not end
    in [px] is written to the clone unchanged; one that ends in [px] is
    reduced to the floor of its numeric part minus 0.1, followed by [px],
    and written when the declaration block takes the reduced value.  When
    the block refuses it, the clone's [font-size] is what it was before.
    The priority is kept. *)
Theorem font_size_is_floored_and_reduced
    nativeNode clonedNode (targetStyle : Style) value reduced :
  c_style clonedNode = Some targetStyle ->
  cssText (computedStyle nativeNode) = "" ->
  In "font-size" (cs_names (computedStyle nativeNode)) ->
  value = getPropertyValue (computedStyle nativeNode) "font-size" ->
  reduced =
    num_toString
      (num_sub
         (Math_floor
            (parseFloat (String.substring 0 (String.length value - 2) value)))
         num_0_1) ++ "px" ->
  exists written : Style,
    c_style (cloneCSSStyle env nativeNode clonedNode) = Some written
    /\ (JSString.endsWith value "px" = false ->
        written !! "font-size" =
        Some (value,
              getPropertyPriority (computedStyle nativeNode) "font-size"))
    /\ (JSString.endsWith value "px" = true ->
        CSS.refused "font-size" reduced = false ->
        written !! "font-size" =
        Some (reduced,
              getPropertyPriority (computedStyle nativeNode) "font-size"))
    /\ (JSString.endsWith value "px" = true ->
        CSS.refused "font-size" reduced = true ->
        written !! "font-size" = targetStyle !! "font-size").
Proof.
  intros Hs Ht Hin -> ->. eexists.
  split; [apply cloneCSSStyle_per_property; eassumption |].
  split; [| split].
  - intros Hpx.
    apply fold_lookup_present;
      [exact Hin | discriminate | | apply enumerated_value, Hin |].
    + rewrite value_font_size. cbv zeta. rewrite Hpx. reflexivity.
    + unfold CSS.refused. rewrite Hpx. reflexivity.
  - intros Hpx Hr.
    apply fold_lookup_present;
      [exact Hin | discriminate | | apply append_px_nonempty | exact Hr].
    rewrite value_font_size. cbv zeta. rewrite Hpx. reflexivity.
  - intros Hpx Hr.
    assert (Hv : fst (cloneCSSStyle_value env nativeNode
                        (computedStyle nativeNode) (parentElement nativeNode)
                        ∅ "font-size") =
                 num_toString
                   (num_sub
                      (Math_floor
                         (parseFloat
                            (String.substring 0
                               (String.length
                                  (getPropertyValue (computedStyle nativeNode)
                                     "font-size") - 2)
                               (getPropertyValue (computedStyle nativeNode)
                                  "font-size"))))
                      num_0_1) ++ "px")
      by (rewrite value_font_size; cbv zeta; rewrite Hpx; reflexivity).
    apply fold_lookup_refused; try discriminate; rewrite Hv;
      [apply append_px_nonempty | exact Hr].
Qed.

(** C4, amended: in the per-property path (the computed style has no
    serialized form), for a node whose own [scrollTop] is positive and
    whose computed [overflow-y] is [auto] or [scroll], the clone's style
    gets [overflow-y: hidden]. *)
Theorem own_scroll_hides_overflow
    nativeNode clonedNode (targetStyle : Style) :
  c_style clonedNode = Some targetStyle ->
  cssText (computedStyle nativeNode) = "" ->
  In "overflow-y" (cs_names (computedStyle nativeNode)) ->
  num_gt (scrollTop nativeNode) num_0 = true ->
  overflowY (computedStyle nativeNode) = "auto"
  \/ overflowY (computedStyle nativeNode) = "scroll" ->
  exists written : Style,
    c_style (cloneCSSStyle env nativeNode clonedNode) = Some written
    /\ written !! "overflow-y" =
       Some ("hidden",
             getPropertyPriority (computedStyle nativeNode) "overflow-y").
Proof.
  intros Hs Ht Hin Hpos Hov. eexists. split.
  - apply cloneCSSStyle_per_property; eassumption.
  - apply fold_lookup_present;
      [exact Hin | discriminate | | discriminate | reflexivity].
    apply value_overflow_y; [exact Hpos |].
    apply autoOrScroll_true, Hov.
Qed.



(** * Further properties of the pipeline *)

(** ** Style replication, property by property *)


Lemma value_unrepositioned node cs parent name :
  name = "position" \/ name = "top" ->
  (forall p, parent = Some p ->
     parentScrolling p = false
     /\ bodyScrolling env cs (p_computedStyle p) = false) ->
  fst (cloneCSSStyle_value env node cs parent ∅ name) =
  getPropertyValue cs name.
Proof.
  intros Hname Hquiet. unfold cloneCSSStyle_value.
  destruct parent as [p |].
  - destruct (Hquiet p eq_refl) as [-> ->].
    destruct Hname as [-> | ->];
      destruct (num_gt (scrollTop node) num_0), (autoOrScroll (overflowY cs));
      reflexivity.
  - destruct Hname as [-> | ->];
      destruct (num_gt (scrollTop node) num_0), (autoOrScroll (overflowY cs));
      reflexivity.
Qed.

Lemma value_overflow_y_unscrolled node cs parent :
  num_gt (scrollTop node) num_0 && autoOrScroll (overflowY cs) = false ->
  fst (cloneCSSStyle_value env node cs parent ∅ "overflow-y") =
  getPropertyValue cs "overflow-y".
Proof.
  intros Hno. unfold cloneCSSStyle_value. rewrite Hno.
  destruct parent as [p |];
    [destruct (parentScrolling p), (bodyScrolling env cs (p_computedStyle p)) |];
    reflexivity.
Qed.

Lemma fold_leaves_inset_block node cs parent names : forall (s : Style),
  (forall p, parent = Some p ->
     parentScrolling p = false
     /\ bodyScrolling env cs (p_computedStyle p) = false) ->
  ~ In "inset-block" names ->
  fold_left (cloneCSSStyle_each env node cs parent) names s !! "inset-block" =
  s !! "inset-block".
Proof.
  induction names as [| x names IH]; intros s Hquiet Hn; [reflexivity |].
  cbn [fold_left]. rewrite IH; [| exact Hquiet | intros H; apply Hn; right; exact H].
  unfold cloneCSSStyle_each. rewrite cloneCSSStyle_value_split.
  rewrite setProperty_other by (intros <-; apply Hn; left; reflexivity).
  destruct parent as [p |]; [| rewrite andb_false_r; reflexivity].
  destruct (Hquiet p eq_refl) as [-> ->]. rewrite andb_false_r. reflexivity.
Qed.

(** X1: when the computed style has a serialized form, the clone's style
    is that form as the declaration block reads it, with [transform-origin]
    assigned from the source on top: the source's [transform-origin] when it
    has one, and no [transform-origin] at all when it has none, since
    assigning an empty value removes the declaration.  What the clone's
    style held before is discarded, and no correction is applied. *)
Theorem serialized_style_is_copied_verbatim
    nativeNode clonedNode (targetStyle : Style) :
  c_style clonedNode = Some targetStyle ->
  cssText (computedStyle nativeNode) <> "" ->
  exists written : Style,
    c_style (cloneCSSStyle env nativeNode clonedNode) = Some written
    /\ (transformOrigin (computedStyle nativeNode) <> "" ->
        written !! "transform-origin" =
        Some (transformOrigin (computedStyle nativeNode), ""))
    /\ (transformOrigin (computedStyle nativeNode) = "" ->
        written !! "transform-origin" = None)
    /\ forall name, name <> "transform-origin" ->
         written !! name =
         parse_cssText env (cssText (computedStyle nativeNode)) !! name.
Proof.
  intros Hs Ht. apply String.eqb_neq in Ht.
  unfold cloneCSSStyle. rewrite Hs, Ht. cbn [negb].
  eexists. split; [reflexivity |]. split; [| split].
  - intros Ho. apply setProperty_stored; [exact Ho | reflexivity | reflexivity].
  - intros Ho. rewrite Ho. unfold setProperty, removeProperty. cbn [String.eqb].
    apply lookup_delete_eq.
  - intros name Hn. apply setProperty_other. exact Hn.
Qed.



(** X4: the per-property path writes on top of the clone's own style: a
    declaration the clone already has (copied with its attributes) is kept
    as it is when the computed style does not enumerate the property, and
    nothing that was absent appears. *)
Theorem unlisted_declarations_survive
    nativeNode clonedNode (targetStyle : Style) name :
  c_style clonedNode = Some targetStyle ->
  cssText (computedStyle nativeNode) = "" ->
  ~ In name (cs_names (computedStyle nativeNode)) ->
  name <> "inset-block" ->
  exists written : Style,
    c_style (cloneCSSStyle env nativeNode clonedNode) = Some written
    /\ written !! name = targetStyle !! name.
Proof.
  intros Hs Ht Hout Hi. eexists. split.
  - apply cloneCSSStyle_per_property; eassumption.
  - apply fold_lookup_absent; assumption.
Qed.

(** X5: in the per-property path, when the node has no parent element, or
    a parent for which neither scroll check holds, [position] and [top] are
    written unchanged and [inset-block] is not removed. *)
Theorem quiet_parent_leaves_position_alone
    nativeNode clonedNode (targetStyle : Style) :
  c_style clonedNode = Some targetStyle ->
  cssText (computedStyle nativeNode) = "" ->
  (forall p, parentElement nativeNode = Some p ->
     parentScrolling p = false
     /\ bodyScrolling env (computedStyle nativeNode) (p_computedStyle p) = false) ->
  exists written : Style,
    c_style (cloneCSSStyle env nativeNode clonedNode) = Some written
    /\ (In "position" (cs_names (computedStyle nativeNode)) ->
        written !! "position" =
        Some (getPropertyValue (computedStyle nativeNode) "position",
              getPropertyPriority (computedStyle nativeNode) "position"))
    /\ (In "top" (cs_names (computedStyle nativeNode)) ->
        written !! "top" =
        Some (getPropertyValue (computedStyle nativeNode) "top",
              getPropertyPriority (computedStyle nativeNode) "top"))
    /\ (~ In "inset-block" (cs_names (computedStyle nativeNode)) ->
        written !! "inset-block" = targetStyle !! "inset-block").
Proof.
  intros Hs Ht Hquiet. eexists.
  split; [apply cloneCSSStyle_per_property; eassumption |].
  split; [| split].
  - intros Hin.
    apply fold_lookup_present;
      [exact Hin | discriminate | | apply enumerated_value, Hin | reflexivity].
    apply value_unrepositioned; [left; reflexivity | exact Hquiet].
  - intros Hin.
    apply fold_lookup_present;
      [exact Hin | discriminate | | apply enumerated_value, Hin | reflexivity].
    apply value_unrepositioned; [right; reflexivity | exact Hquiet].
  - intros Hout. apply fold_leaves_inset_block; assumption.
Qed.

(** X6: in the per-property path, [overflow-y] is written unchanged when
    the node's own [scrollTop] is not positive, and also when its computed
    [overflow-y] is neither [auto] nor [scroll]. *)
Theorem unscrolled_node_keeps_overflow
    nativeNode clonedNode (targetStyle : Style) :
  c_style clonedNode = Some targetStyle ->
  cssText (computedStyle nativeNode) = "" ->
  In "overflow-y" (cs_names (computedStyle nativeNode)) ->
  num_gt (scrollTop nativeNode) num_0 = false
  \/ (overflowY (computedStyle nativeNode) <> "auto"
      /\ overflowY (computedStyle nativeNode) <> "scroll") ->
  exists written : Style,
    c_style (cloneCSSStyle env nativeNode clonedNode) = Some written
    /\ written !! "overflow-y" =
       Some (overflowY (computedStyle nativeNode),
             getPropertyPriority (computedStyle nativeNode) "overflow-y").
Proof.
  intros Hs Ht Hin Hno. eexists. split.
  - apply cloneCSSStyle_per_property; eassumption.
  - apply fold_lookup_present;
      [exact Hin | discriminate | | apply enumerated_value, Hin | reflexivity].
    apply value_overflow_y_unscrolled.
    destruct Hno as [-> | [Ha Hsc]]; [reflexivity |].
    unfold autoOrScroll. apply String.eqb_neq in Ha, Hsc.
    rewrite Ha, Hsc. apply andb_false_r.
Qed.

(** X7: in the per-property path, the document-scroll check by itself
    (position not [fixed], parent's [min-height] equal to the viewport
    height in pixels and numerically below the node's height) makes
    [position] be written as [relative], whether or not the parent is
    scrolled, and rewriting [top] for it removes [inset-block] too. *)
Theorem document_scroll_repositions
    nativeNode clonedNode (targetStyle : Style) parent :
  c_style clonedNode = Some targetStyle ->
  cssText (computedStyle nativeNode) = "" ->
  parentElement nativeNode = Some parent ->
  position (computedStyle nativeNode) <> "fixed" ->
  minHeight (p_computedStyle parent) =
    num_toString (innerHeight (window env)) ++ "px" ->
  num_lt
    (parseInt (JSString.replace (minHeight (p_computedStyle parent)) "px" ""))
    (parseInt (JSString.replace (height (computedStyle nativeNode)) "px" ""))
  = true ->
  exists written : Style,
    c_style (cloneCSSStyle env nativeNode clonedNode) = Some written
    /\ (In "position" (cs_names (computedStyle nativeNode)) ->
        written !! "position" =
        Some ("relative",
              getPropertyPriority (computedStyle nativeNode) "position"))
    /\ (forall before after,
          cs_names (computedStyle nativeNode) = (before ++ "top" :: after)%list ->
          ~ In "inset-block" after ->
          written !! "inset-block" = None).
Proof.
  intros Hs Ht Hp H1 H2 H3.
  pose proof (proj2 (bodyScrolling_true _ _) (conj H1 (conj H2 H3))) as Hbody.
  eexists. split; [apply cloneCSSStyle_per_property; eassumption |].
  rewrite Hp. split.
  - intros Hin.
    apply fold_lookup_present;
      [exact Hin | discriminate | | discriminate | reflexivity].
    apply value_position. rewrite Hbody. apply orb_true_r.
  - intros before after Hnames Hafter. rewrite Hnames.
    rewrite fold_left_app. cbn [fold_left].
    apply fold_keeps_inset_block_out; [exact Hafter |].
    apply each_top_strips_inset_block. rewrite Hbody. apply orb_true_r.
Qed.

(** ** Form state *)

Lemma getAttribute_set_assoc_same name v l :
  getAttribute name (set_assoc name v l) = Some v.
Proof.
  induction l as [| [k w] l IH]; simpl.
  - rewrite String.eqb_refl. reflexivity.
  - destruct (String.eqb k name) eqn:Hk; simpl; rewrite Hk;
      [reflexivity | exact IH].
Qed.

Lemma getAttribute_set_assoc_other name v l k :
  k <> name -> getAttribute k (set_assoc name v l) = getAttribute k l.
Proof.
  intros Hk. apply not_eq_sym in Hk.
  induction l as [| [k' w] l IH]; simpl.
  - apply String.eqb_neq in Hk. rewrite Hk. reflexivity.
  - destruct (String.eqb k' name) eqn:Hn; simpl.
    + apply String.eqb_eq in Hn. subst k'.
      apply String.eqb_neq in Hk. rewrite Hk. reflexivity.
    + destruct (String.eqb k' k); [reflexivity | exact IH].
Qed.

Lemma with_childNodes_same (c : Cloned) :
  with_childNodes (c_childNodes c) c = c.
Proof. destruct c; reflexivity. Qed.

(** X8: for an input element the clone gets a [value] attribute holding
    the current value of the field, replacing one it had; every other
    attribute, the style and the children are left as they are. *)
Theorem input_value_becomes_attribute nativeNode clonedNode :
  interface nativeNode = HTMLInputElement ->
  getAttribute "value" (c_attributes (cloneInputValue env nativeNode clonedNode))
    = Some (value nativeNode)
  /\ (forall name, name <> "value" ->
        getAttribute name
          (c_attributes (cloneInputValue env nativeNode clonedNode))
        = getAttribute name (c_attributes clonedNode))
  /\ c_style (cloneInputValue env nativeNode clonedNode) = c_style clonedNode
  /\ c_childNodes (cloneInputValue env nativeNode clonedNode)
     = c_childNodes clonedNode.
Proof.
  intros Hi. unfold cloneInputValue. rewrite Hi. cbn [Interface_eqb].
  unfold setAttribute. cbn.
  split; [apply getAttribute_set_assoc_same |].
  split; [| split; reflexivity].
  intros name Hn. apply getAttribute_set_assoc_other, Hn.
Qed.

Lemma select_first_unfold v child rest :
  select_first v (child :: rest) =
  if option_matches v child then setAttribute "selected" "" child :: rest
  else child :: select_first v rest.
Proof. reflexivity. Qed.

Lemma select_first_no_match v l :
  Forall (fun child => option_matches v child = false) l ->
  select_first v l = l.
Proof.
  induction 1 as [| child l Hc _ IH]; [reflexivity |].
  rewrite select_first_unfold, Hc, IH. reflexivity.
Qed.

Lemma select_first_match v before child after :
  Forall (fun c => option_matches v c = false) before ->
  option_matches v child = true ->
  select_first v (before ++ child :: after) =
  (before ++ setAttribute "selected" "" child :: after)%list.
Proof.
  induction 1 as [| c before Hc _ IH]; intros Hm.
  - cbn [app]. rewrite select_first_unfold, Hm. reflexivity.
  - cbn [app]. rewrite select_first_unfold, Hc, IH by exact Hm. reflexivity.
Qed.

(** X9: for a select element, the first element child of the clone whose
    [value] attribute equals the current value of the original gets the
    attribute [selected]; the children before and after it, later matches
    included, are left untouched, in the same order. *)
Theorem select_marks_the_first_match
    nativeNode clonedNode before child after :
  interface nativeNode = HTMLSelectElement ->
  c_childNodes clonedNode = (before ++ child :: after)%list ->
  Forall (fun c => option_matches (value nativeNode) c = false) before ->
  option_matches (value nativeNode) child = true ->
  c_childNodes (cloneSelectValue nativeNode clonedNode) =
    (before ++ setAttribute "selected" "" child :: after)%list
  /\ getAttribute "selected"
       (c_attributes (setAttribute "selected" "" child)) = Some ""
  /\ c_attributes (cloneSelectValue nativeNode clonedNode)
     = c_attributes clonedNode.
Proof.
  intros Hi Hc Hbefore Hm. unfold cloneSelectValue. rewrite Hi.
  cbn [Interface_eqb]. rewrite Hc.
  rewrite select_first_match by assumption.
  split; [reflexivity |]. split; [| reflexivity].
  apply getAttribute_set_assoc_same.
Qed.

(** X10: for a select element none of whose cloned element children
    carries the current value, the clone is left exactly as it is: the
    mismatch is tolerated silently. *)
Theorem select_without_match_is_untouched nativeNode clonedNode :
  Forall (fun c => option_matches (value nativeNode) c = false)
    (c_childNodes clonedNode) ->
  cloneSelectValue nativeNode clonedNode = clonedNode.
Proof.
  intros Hno. unfold cloneSelectValue.
  destruct (Interface_eqb (interface nativeNode) HTMLSelectElement);
    [| reflexivity].
  rewrite select_first_no_match by exact Hno. apply with_childNodes_same.
Qed.

(** ** The pipeline, end to end *)

Lemma outcome_then {A B} (p : Promise A) (f : A -> Promise B) :
  outcome (then_ p f) =
  match outcome p with
  | Resolved a => outcome (f a)
  | Rejected e => Rejected e
  end.
Proof.
  destruct p as [t [a | e]]; [rewrite then_resolved |]; reflexivity.
Qed.

Lemma outcome_gate node options (isRoot : bool) :
  outcome (if isRoot then resolve false else excluded node options) =
  Resolved (negb isRoot && negb (accepted options node)).
Proof.
  destruct isRoot; [reflexivity |]. unfold excluded, accepted.
  destruct (filter options) as [f |]; [| reflexivity].
  unfold emit. rewrite then_resolved. reflexivity.
Qed.

(** The outcome of a call: [null] for a node the guard stops, else the
    three phases in turn. *)
Lemma outcome_cloneNode node options isRoot :
  outcome (cloneNode env node options isRoot) =
  if negb isRoot && negb (accepted options node) then Resolved None
  else
    match outcome (cloneSingleNode env node options) with
    | Resolved shape =>
        match outcome (cloneChildren env node shape options) with
        | Resolved full => Resolved (Some (decorate env node full))
        | Rejected e => Rejected e
        end
    | Rejected e => Rejected e
    end.
Proof.
  rewrite cloneNode_unfold. unfold emit.
  rewrite then_resolved. cbn [outcome snd].
  rewrite outcome_then, outcome_gate.
  destruct (negb isRoot && negb (accepted options node)); [reflexivity |].
  rewrite outcome_then.
  destruct (outcome (cloneSingleNode env node options)) as [shape | e];
    [| reflexivity].
  rewrite outcome_then.
  destruct (outcome (cloneChildren env node shape options)); reflexivity.
Qed.

Lemma fold_keeps_interface options l : forall t x y,
  outcome (fold_left (attach env options) l (t, Resolved x)) = Resolved y ->
  c_interface y = c_interface x.
Proof.
  induction l as [| c l IH]; intros t x y H.
  - cbn in H. injection H as <-. reflexivity.
  - cbn [fold_left] in H. rewrite attach_step in H.
    destruct (outcome (cloneNode env c options false)) as [[cc |] | e].
    + apply IH in H. rewrite H. reflexivity.
    + apply IH in H. exact H.
    + rewrite attach_rejected in H. discriminate.
Qed.

Lemma cloneChildren_keeps_interface nativeNode clonedNode options full :
  outcome (cloneChildren env nativeNode clonedNode options) = Resolved full ->
  c_interface full = c_interface clonedNode.
Proof.
  rewrite cloneChildren_unfold. destruct (_ || _).
  - intros H. injection H as <-. reflexivity.
  - apply fold_keeps_interface.
Qed.

(** X11: whatever children a textarea has, and whatever their clones are,
    the children of its finished clone are the current value of the field
    read as markup: the clones attached by the traversal are replaced. *)
Theorem textarea_clone_holds_its_value nativeNode options isRoot clone :
  interface nativeNode = HTMLTextAreaElement ->
  outcome (cloneNode env nativeNode options isRoot) = Resolved (Some clone) ->
  c_childNodes clone = parse_innerHTML env (value nativeNode).
Proof.
  intros Hi. rewrite outcome_cloneNode.
  destruct (_ && _); [discriminate |].
  unfold cloneSingleNode. rewrite Hi. cbn [Interface_eqb andb outcome snd resolve].
  destruct (outcome (cloneChildren env nativeNode (shallowClone nativeNode) options))
    as [full | e] eqn:Hfull; [| discriminate].
  intros H. injection H as <-.
  apply cloneChildren_keeps_interface in Hfull. cbn in Hfull.
  unfold decorate. rewrite Hfull, Hi. cbn [instanceof_Element Interface_eqb negb].
  unfold cloneSelectValue, cloneInputValue. rewrite Hi. reflexivity.
Qed.

(** X12: a node that is not an element and has no children (a text node)
    is either stopped by the guard or cloned verbatim: its clone is the
    shallow copy, never decorated, and the call is never rejected. *)
Theorem text_node_is_cloned_verbatim nativeNode options isRoot :
  interface nativeNode = CharacterData ->
  children nativeNode = [] ->
  outcome (cloneNode env nativeNode options isRoot) =
  if negb isRoot && negb (accepted options nativeNode) then Resolved None
  else Resolved (Some (shallowClone nativeNode)).
Proof.
  intros Hi Hc. rewrite outcome_cloneNode.
  destruct (_ && _); [reflexivity |].
  unfold cloneSingleNode. rewrite Hi. cbn [Interface_eqb andb outcome snd resolve].
  rewrite cloneChildren_unfold, Hc. cbn.
  unfold decorate. cbn. rewrite Hi. reflexivity.
Qed.

(** X13: a video with a poster whose conversion succeeds is replaced by
    the image made from the converted poster: the run is the call and the
    one conversion, with the content type inferred from the poster's
    address; the clone is that image, decorated from the video, and the
    video's children are not visited. *)
Theorem poster_video_becomes_image video options dataURL :
  interface video = HTMLVideoElement ->
  poster video <> "" ->
  resourceToDataURL env (poster video) (getMimeType env (poster video)) options
    = Resolved dataURL ->
  exists image,
    createImage dataURL = ([], Resolved image)
    /\ cloneNode env video options true =
         ([EvCloneNode video true;
           EvResource (poster video) (getMimeType env (poster video))],
          Resolved (Some (decorate env video image))).
Proof.
  intros Hi Hp Hr. apply String.eqb_neq in Hp.
  eexists. split; [reflexivity |].
  - rewrite cloneNode_unfold. unfold emit. rewrite then_resolved, then_resolve.
    unfold cloneSingleNode, cloneVideoElement. rewrite Hi, Hp, Hr.
    cbn [Interface_eqb negb andb]. unfold createImage, resolve.
    rewrite !then_resolved. cbn [trace outcome fst snd app].
    rewrite then_resolved. rewrite cloneChildren_unfold, Hi.
    cbn [Interface_eqb]. rewrite orb_true_r. unfold resolve.
    cbn [trace outcome fst snd app]. rewrite then_resolved. reflexivity.
Qed.

(** X14: a video without a poster is cloned like any other element, except
    that its children are never visited: the run is the call alone and the
    clone is the decorated shallow copy. *)
Theorem video_without_poster_is_shallow video options :
  interface video = HTMLVideoElement ->
  poster video = "" ->
  cloneNode env video options true =
    ([EvCloneNode video true],
     Resolved (Some (decorate env video (shallowClone video)))).
Proof.
  intros Hi Hp.
  rewrite cloneNode_unfold. unfold emit. rewrite then_resolved, then_resolve.
  unfold cloneSingleNode. rewrite Hi, Hp. cbn [Interface_eqb String.eqb negb andb].
  rewrite then_resolve, cloneChildren_unfold, Hi.
  cbn [Interface_eqb]. rewrite orb_true_r, then_resolve. reflexivity.
Qed.

(** X15: the traversal stops at the first child whose clone is rejected:
    [cloneChildren] is rejected for the same reason, and its run ends with
    the run of that child; the later siblings are not started. *)
Theorem traversal_stops_at_first_rejection
    nativeNode clonedNode options before child after reason :
  interface nativeNode <> HTMLVideoElement ->
  children nativeNode = (before ++ child :: after)%list ->
  Forall (fun c => resolves (cloneNode env c options false)) before ->
  outcome (cloneNode env child options false) = Rejected reason ->
  cloneChildren env nativeNode clonedNode options =
    (concat (map (fun c => trace (cloneNode env c options false))
               (before ++ [child])),
     Rejected reason).
Proof.
  intros Hvideo Hchildren Hbefore Hrej.
  rewrite cloneChildren_unfold, Hchildren.
  apply Interface_eqb_neq in Hvideo. rewrite Hvideo, orb_false_r.
  replace (length (before ++ child :: after) =? 0)%nat with false
    by (symmetry; apply Nat.eqb_neq; rewrite length_app; simpl; lia).
  unfold resolve.
  rewrite (attach_until_rejection options before child after reason Hbefore Hrej).
  reflexivity.
Qed.

Lemma clone_of_accepted options child :
  resolves (cloneNode env child options false) ->
  is_Some (clone_of env options child) <-> accepted options child = true.
Proof.
  intros [r Hr]. unfold clone_of. rewrite Hr.
  rewrite outcome_cloneNode in Hr. cbn [negb andb] in Hr.
  destruct (accepted options child); cbn [negb] in Hr.
  - destruct (outcome (cloneSingleNode env child options)) as [shape | e];
      [| discriminate].
    destruct (outcome (cloneChildren env child shape options));
      [| discriminate].
    injection Hr as <-. split; [reflexivity | eauto].
  - injection Hr as <-. split; [intros [x Hx]; discriminate | discriminate].
Qed.

Lemma kept_count options l :
  Forall (fun child => resolves (cloneNode env child options false)) l ->
  length (omap (clone_of env options) l) =
  length (List.filter (accepted options) l).
Proof.
  induction 1 as [| child l Hr _ IH]; [reflexivity |].
  simpl omap. cbn [List.filter].
  pose proof (clone_of_accepted options child Hr) as Hiff.
  destruct (accepted options child), (clone_of env options child) as [c |];
    cbn [length]; try (f_equal; exact IH); try exact IH.
  - destruct (proj2 Hiff eq_refl) as [x Hx]. discriminate.
  - assert (false = true) by (apply Hiff; eauto). discriminate.
Qed.

(** X16: the clone gains one child for each effective child the inclusion
    predicate accepts, and none for the others; without a predicate it
    gains one for every effective child. *)
Theorem kept_children_are_the_accepted_ones nativeNode clonedNode options :
  interface nativeNode <> HTMLVideoElement ->
  Forall (fun child => resolves (cloneNode env child options false))
    (children nativeNode) ->
  exists full,
    outcome (cloneChildren env nativeNode clonedNode options) = Resolved full
    /\ length (c_childNodes full) =
       length (c_childNodes clonedNode)
       + length (List.filter (accepted options) (children nativeNode))
    /\ (filter options = None ->
        length (c_childNodes full) =
        length (c_childNodes clonedNode) + length (children nativeNode)).
Proof.
  intros Hvideo Hall.
  assert (Hrun :
    outcome (cloneChildren env nativeNode clonedNode options) =
    Resolved (with_childNodes
                (c_childNodes clonedNode
                 ++ omap (clone_of env options) (children nativeNode))
                clonedNode)).
  { rewrite cloneChildren_unfold.
    apply Interface_eqb_neq in Hvideo. rewrite Hvideo, orb_false_r.
    destruct (children nativeNode) as [| c l] eqn:Hc.
    - simpl. rewrite with_childNodes_id. reflexivity.
    - cbn [length Nat.eqb]. unfold resolve.
      rewrite (attach_all options (c :: l) Hall). reflexivity. }
  eexists. split; [exact Hrun |].
  assert (Hlen :
    length (c_childNodes clonedNode
            ++ omap (clone_of env options) (children nativeNode)) =
    length (c_childNodes clonedNode)
    + length (List.filter (accepted options) (children nativeNode)))
    by (rewrite length_app, kept_count by exact Hall; reflexivity).
  split; [exact Hlen |].
  intros Hnone. cbn [with_childNodes c_childNodes]. rewrite Hlen. f_equal.
  clear -Hnone. induction (children nativeNode) as [| c l IH]; [reflexivity |].
  cbn [List.filter]. unfold accepted at 1. rewrite Hnone. cbn [length].
  rewrite IH. reflexivity.
Qed.

(** X17: the root flag matters only through the guard: for a node the
    predicate accepts (or when there is no predicate), the call below the
    root settles exactly as the call at the root does. *)
Theorem accepted_node_is_cloned_like_a_root node options :
  accepted options node = true ->
  outcome (cloneNode env node options false) =
  outcome (cloneNode env node options true).
Proof.
  intros Ha. rewrite !outcome_cloneNode, Ha. reflexivity.
Qed.

(** ** What a run does, and where *)

Lemma trace_cloneSingleNode_cases node options ev :
  In ev (trace (cloneSingleNode env node options)) ->
  (ev = EvToDataURL node /\ interface node = HTMLCanvasElement)
  \/ (ev = EvResource (poster node) (getMimeType env (poster node))
      /\ interface node = HTMLVideoElement /\ poster node <> "").
Proof.
  unfold cloneSingleNode, cloneCanvasElement, cloneVideoElement, emit.
  destruct (Interface_eqb (interface node) HTMLCanvasElement) eqn:Hc.
  - apply Interface_eqb_eq in Hc. rewrite then_resolved.
    destruct (String.eqb _ _); simpl; intros [H | []]; left;
      (split; [congruence | exact Hc]).
  - destruct (Interface_eqb (interface node) HTMLVideoElement) eqn:Hv;
      [| contradiction].
    destruct (String.eqb (poster node) "") eqn:Hp; [contradiction |].
    cbn [negb andb]. intros H.
    apply trace_then_in in H as [[H | []] | (a & _ & [])].
    right. split; [congruence |]. split.
    + apply Interface_eqb_eq, Hv.
    + apply String.eqb_neq, Hp.
Qed.

(** An event of a step of the traversal is an earlier one, or belongs to the
    run of the child, which is then part of the step as a whole. *)
Lemma trace_attach_cases options deferred child ev :
  In ev (trace (attach env options deferred child)) ->
  In ev (trace deferred)
  \/ (In ev (trace (cloneNode env child options false))
      /\ forall e, In e (trace (cloneNode env child options false)) ->
                   In e (trace (attach env options deferred child))).
Proof.
  destruct deferred as [t [x | e]].
  - rewrite attach_step. cbn [trace fst]. intros H.
    apply in_app_or in H as [H | H]; [left; exact H | right].
    split; [exact H |]. intros e He. apply in_or_app. right. exact He.
  - intros H. left. exact H.
Qed.

Lemma trace_fold_cases options l : forall deferred ev,
  In ev (trace (fold_left (attach env options) l deferred)) ->
  In ev (trace deferred)
  \/ exists child,
       In child l
       /\ In ev (trace (cloneNode env child options false))
       /\ forall e, In e (trace (cloneNode env child options false)) ->
                    In e (trace (fold_left (attach env options) l deferred)).
Proof.
  induction l as [| c l IH]; intros deferred ev H; [left; exact H |].
  cbn [fold_left] in *. apply IH in H as [H | (child & Hin & H & Hall)].
  - apply trace_attach_cases in H as [H | [H Hall]]; [left; exact H | right].
    exists c. split; [left; reflexivity |]. split; [exact H |].
    intros e He. apply trace_fold_l, Hall, He.
  - right. exists child. split; [right; exact Hin |]. split; assumption.
Qed.

(** The events of a call, with what each of them says about the node. *)
Lemma trace_cloneNode_cases node options isRoot ev :
  In ev (trace (cloneNode env node options isRoot)) ->
  ev = EvCloneNode node isRoot
  \/ (isRoot = false /\ filter options <> None /\ ev = EvFilter node)
  \/ (ev = EvToDataURL node /\ interface node = HTMLCanvasElement)
  \/ (ev = EvResource (poster node) (getMimeType env (poster node))
      /\ interface node = HTMLVideoElement /\ poster node <> "")
  \/ exists child,
       interface node <> HTMLVideoElement
       /\ In child (children node)
       /\ In ev (trace (cloneNode env child options false))
       /\ forall e, In e (trace (cloneNode env child options false)) ->
                    In e (trace (cloneNode env node options isRoot)).
Proof.
  rewrite cloneNode_unfold. intros H.
  apply trace_then_in in H as [[H | []] | (u & Hu & H)]; [left; congruence |].
  apply trace_then_in in H as [H | (skip & Hskip & H)].
  - destruct isRoot; [contradiction |]. unfold excluded in H.
    destruct (filter options) eqn:Hf; [| contradiction].
    apply trace_then_in in H as [[H | []] | (_ & _ & [])].
    right. left. repeat split; congruence.
  - destruct skip; [contradiction |].
    apply trace_then_in in H as [H | (shape & Hshape & H)].
    + apply trace_cloneSingleNode_cases in H as [H | H]; tauto.
    + apply trace_then_in in H as [H | (full & _ & [])].
      right. right. right. right.
      rewrite cloneChildren_unfold in H.
      destruct (Interface_eqb (interface node) HTMLVideoElement) eqn:Hv;
        [rewrite orb_true_r in H; contradiction |].
      rewrite orb_false_r in H.
      destruct (length (children node) =? 0)%nat eqn:Hlen; [contradiction |].
      apply trace_fold_cases in H as [[] | (child & Hin & H & Hall)].
      exists child. split; [apply Interface_eqb_neq, Hv |].
      split; [exact Hin |]. split; [exact H |].
      intros e He.
      eapply trace_then_r; [exact Hu |].
      eapply trace_then_r; [exact Hskip |]. cbv iota.
      eapply trace_then_r; [exact Hshape |].
      apply trace_then_l. rewrite cloneChildren_unfold, Hv, Hlen.
      apply Hall, He.
Qed.

(** X18: [cloneNode] is invoked only on the node itself and on nodes
    reachable from it through effective children, never below a video; and
    the root flag is not handed down: an invocation with the flag set can
    only be the outermost call. *)
Theorem calls_stay_among_effective_descendants options : forall node isRoot m r,
  In (EvCloneNode m r) (trace (cloneNode env node options isRoot)) ->
  effective_descendant node m
  /\ (r = true -> m = node /\ isRoot = true).
Proof.
  intros node. induction node as [node IH] using Node_children_ind.
  intros isRoot m r H.
  apply trace_cloneNode_cases in H
    as [H | [(_ & _ & H) | [(H & _) | [(H & _) | (child & Hv & Hin & H & _)]]]];
    try discriminate.
  - injection H as -> ->. split; [constructor |]. intros ->. split; reflexivity.
  - destruct (IH child Hin false m r H) as [Hd Hr]. split.
    + eapply descendant_step; eassumption.
    + intros ->. destruct (Hr eq_refl) as [_ Hfalse]. discriminate.
Qed.

(** X19: the inclusion predicate is consulted only when there is one, and
    only about nodes on which [cloneNode] was invoked below the root, all
    of them effective descendants of the node the run started from. *)
Theorem predicate_sees_only_visited_nodes options : forall node isRoot m,
  consults (cloneNode env node options isRoot) m ->
  filter options <> None
  /\ In (EvCloneNode m false) (trace (cloneNode env node options isRoot))
  /\ effective_descendant node m.
Proof.
  unfold consults.
  intros node. induction node as [node IH] using Node_children_ind.
  intros isRoot m H.
  pose proof H as Hcases.
  apply trace_cloneNode_cases in Hcases
    as [Hc | [(Hr & Hf & Hc) | [(Hc & _) | [(Hc & _)
       | (child & Hv & Hin & Hc & Hall)]]]];
    try discriminate.
  - injection Hc as ->. subst isRoot. split; [exact Hf |].
    split; [| constructor].
    rewrite cloneNode_unfold. apply trace_then_l. left. reflexivity.
  - destruct (IH child Hin false m Hc) as (Hf & Hcall & Hd).
    split; [exact Hf |]. split; [apply Hall, Hcall |].
    eapply descendant_step; eassumption.
Qed.

(** X20: a run converts nothing but the non-empty posters of videos it
    reached, with the content type inferred from the poster's address, and
    serializes nothing but canvases it reached. *)
Theorem effects_only_where_due options : forall node isRoot,
  (forall url contentType,
      attempts (cloneNode env node options isRoot) url contentType ->
      exists video,
        effective_descendant node video
        /\ interface video = HTMLVideoElement
        /\ poster video = url /\ url <> ""
        /\ contentType = getMimeType env url)
  /\ (forall canvas,
        In (EvToDataURL canvas) (trace (cloneNode env node options isRoot)) ->
        effective_descendant node canvas
        /\ interface canvas = HTMLCanvasElement).
Proof.
  unfold attempts.
  intros node. induction node as [node IH] using Node_children_ind.
  intros isRoot. split.
  - intros url contentType H.
    apply trace_cloneNode_cases in H
      as [H | [(_ & _ & H) | [(H & _) | [(H & Hv & Hp)
         | (child & Hv & Hin & H & _)]]]];
      try discriminate.
    + injection H as -> ->. exists node.
      split; [constructor |]. split; [exact Hv |]. split; [reflexivity |].
      split; [exact Hp | reflexivity].
    + destruct (proj1 (IH child Hin false) url contentType H)
        as (video & Hd & Hrest).
      exists video. split; [eapply descendant_step; eassumption | exact Hrest].
  - intros canvas H.
    apply trace_cloneNode_cases in H
      as [H | [(_ & _ & H) | [(H & Hc) | [(H & _)
         | (child & Hv & Hin & H & _)]]]];
      try discriminate.
    + injection H as ->. split; [constructor | exact Hc].
    + destruct (proj2 (IH child Hin false) canvas H) as (Hd & Hc).
      split; [eapply descendant_step; eassumption | exact Hc].
Qed.

(** X21: when there is an inclusion predicate, it is consulted about every
    node on which [cloneNode] is invoked below the root. *)
Theorem every_call_below_the_root_is_screened options f :
  filter options = Some f ->
  forall node isRoot m,
    In (EvCloneNode m false) (trace (cloneNode env node options isRoot)) ->
    consults (cloneNode env node options isRoot) m.
Proof.
  intros Hf. unfold consults.
  intros node. induction node as [node IH] using Node_children_ind.
  intros isRoot m H.
  apply trace_cloneNode_cases in H
    as [H | [(_ & _ & H) | [(H & _) | [(H & _)
       | (child & Hv & Hin & H & Hall)]]]];
    try discriminate.
  - injection H as -> <-. rewrite cloneNode_unfold.
    eapply trace_then_r; [reflexivity |]. apply trace_then_l.
    unfold excluded. rewrite Hf. apply trace_then_l. left. reflexivity.
  - apply Hall, (IH child Hin false m H).
Qed.

End Properties.

(** * The statements at concrete inputs *)

Section Instances.

Import Sample.
#[local] Existing Instance DoubleNumber.

(** Membership in an explicit list. *)
Ltac in_list := repeat first [left; reflexivity | right].

(** The double instance reads and prints as an engine does. *)
Example doubles_read_back :
  map (fun s => Double.toString (Double.parseFloat s))
    ["16"; "0.1"; "13.3333px"; "1e21"; "1e-7"; ".5";
     "123456789012345678901234567890"; "9007199254740993"; "px"]
  = ["16"; "0.1"; "13.3333"; "1e+21"; "1e-7"; "0.5";
     "1.2345678901234568e+29"; "9007199254740992"; "NaN"].
Proof. vm_compute. reflexivity. Qed.

Example doubles_round :
  Double.toString (Double.sub (Double.parseFloat "0.3") (Double.parseFloat "0.1"))
  = "0.19999999999999998"
  /\ Double.toString
       (Double.sub (Double.floor (Double.parseFloat "13.3333"))
          (Double.of_decimal false 1 (-1)))
     = "12.9".
Proof. split; vm_compute; reflexivity. Qed.

Example integers_are_parsed :
  map (fun s => Double.toString (Double.parseInt s))
    ["900"; "1200.5"; " -12abc"; "0x1F"; "auto"; ""]
  = ["900"; "1200"; "-12"; "31"; "NaN"; "NaN"].
Proof. vm_compute. reflexivity. Qed.

(** A script element below the root is excluded: two events, no clone. *)
Lemma excluded_script_yields_null :
  cloneNode env script skip_scripts false =
    ([EvCloneNode script false; EvFilter script], Resolved None).
Proof. eapply excluded_node_yields_null; reflexivity. Defined.

(** Children [a; b; c] with [b] excluded: the clone has the clones of [a]
    and [c], in this order. *)
Lemma article_keeps_order :
  outcome (cloneChildren env article (shallowClone article) skip_scripts) =
    Resolved (with_childNodes
                (omap (clone_of env skip_scripts) [paragraph; script; span])
                (shallowClone article))
  /\ omap (clone_of env skip_scripts) [paragraph; script; span] =
     omap (clone_of env skip_scripts) [paragraph; span]
  /\ map c_tagName (omap (clone_of env skip_scripts) [paragraph; script; span]) =
     [Some "P"; Some "SPAN"].
Proof.
  destruct (cloneChildren_preserves_order env article (shallowClone article)
              skip_scripts) as [H _].
  - discriminate.
  - repeat constructor; eexists; vm_compute; reflexivity.
  - split; [exact H |]. split; vm_compute; reflexivity.
Defined.

(** C3: the claim fails for text collapsed to nothing.  The computed
    [font-size] is [0px]; the correction turns it into [-0.1px], which the
    declaration block refuses as a negative length; so no [font-size] is
    written at all, and the clone, which had none, is left without one,
    while the [color] enumerated next to it is copied. *)
Theorem zero_font_size_is_lost :
  cssText (computedStyle collapsed) = ""
  /\ getPropertyValue (computedStyle collapsed) "font-size" = "0px"
  /\ fst (cloneCSSStyle_value env collapsed (computedStyle collapsed)
            (parentElement collapsed) ∅ "font-size") = "-0.1px"
  /\ CSS.refused "font-size" "-0.1px" = true
  /\ exists written : Style,
       c_style (cloneCSSStyle env collapsed (shallowClone collapsed))
         = Some written
       /\ written !! "font-size" = None
       /\ written !! "color" = Some ("red", "").
Proof.
  split; [reflexivity |]. split; [reflexivity |].
  split; [vm_compute; reflexivity |]. split; [reflexivity |].
  eexists. split; [reflexivity |]. split; vm_compute; reflexivity.
Qed.

(** A computed [font-size] of 16px is written as 15.9px; one of 0px is
    reduced to [-0.1px], which is refused, and nothing is written. *)
Lemma sixteen_pixels_become_15_9 :
  (exists written : Style,
     c_style (cloneCSSStyle env sized (shallowClone sized)) = Some written
     /\ written !! "font-size" = Some ("15.9px", ""))
  /\ (exists written : Style,
        c_style (cloneCSSStyle env collapsed (shallowClone collapsed))
          = Some written
        /\ written !! "font-size" = None).
Proof.
  split.
  - destruct (font_size_is_floored_and_reduced env sized (shallowClone sized)
                {[ "inset-block" := ("5px", "") ]} "16px" "15.9px"
                eq_refl eq_refl)
      as (written & Hw & _ & Hf & _).
    + right. left. reflexivity.
    + reflexivity.
    + vm_compute. reflexivity.
    + exists written. split; [exact Hw |]. apply Hf; reflexivity.
  - destruct (font_size_is_floored_and_reduced env collapsed
                (shallowClone collapsed) ∅ "0px" "-0.1px" eq_refl eq_refl)
      as (written & Hw & _ & _ & Hf).
    + right. left. reflexivity.
    + reflexivity.
    + vm_compute. reflexivity.
    + exists written. split; [exact Hw |].
      rewrite Hf by reflexivity. reflexivity.
Defined.

(** [scrollTop = 40] with [overflow-y: auto], no serialized form. *)
Lemma scrolled_node_hides_overflow :
  exists written : Style,
    c_style (cloneCSSStyle env scrolled (shallowClone scrolled)) = Some written
    /\ written !! "overflow-y" = Some ("hidden", "").
Proof.
  destruct (own_scroll_hides_overflow env scrolled (shallowClone scrolled)
              {[ "inset-block" := ("5px", "") ]} eq_refl eq_refl)
    as (written & Hw & Ho).
  - left. reflexivity.
  - vm_compute. reflexivity.
  - left. reflexivity.
  - exists written. split; [exact Hw | exact Ho].
Defined.

(** C4 as stated fails when the computed style has a serialized form: the
    node is scrolled by 40 pixels with [overflow-y: auto], and the clone
    carries [overflow-y: auto]. *)
Lemma serialized_style_keeps_overflow :
  num_gt (scrollTop scrolled_serialized) num_0 = true
  /\ overflowY (computedStyle scrolled_serialized) = "auto"
  /\ exists written : Style,
       c_style (cloneCSSStyle env scrolled_serialized
                  (shallowClone scrolled_serialized)) = Some written
       /\ written !! "overflow-y" = Some ("auto", "").
Proof.
  split; [vm_compute; reflexivity |]. split; [reflexivity |].
  eexists. split; [reflexivity | vm_compute; reflexivity].
Qed.




(** The slot inside a shadow tree, its host, and a video. *)
Lemma slot_and_shadow_root_are_followed :
  children slot = [text "projected"]
  /\ children host = [slot]
  /\ children paragraph = [text "a"]
  /\ cloneChildren env (video "poster.png")
       (shallowClone (video "poster.png")) no_filter =
       ([], Resolved (shallowClone (video "poster.png")))
  /\ cloneChildren env span (shallowClone span) no_filter =
       ([], Resolved (shallowClone span)).
Proof.
  pose proof (effective_children_priority env slot) as (Hslot & _).
  pose proof (effective_children_priority env host) as (_ & Hhost & _).
  pose proof (effective_children_priority env paragraph) as (_ & _ & Hp & _).
  pose proof (effective_children_priority env (video "poster.png"))
    as (_ & _ & _ & Hv & _).
  pose proof (effective_children_priority env span) as (_ & _ & _ & _ & He).
  split; [apply Hslot; reflexivity |].
  split; [apply Hhost; [left |]; reflexivity |].
  split; [apply Hp; [left |]; reflexivity |].
  split; [apply Hv; reflexivity | apply He; reflexivity].
Defined.

(** C7 as stated fails for a slot-type element nothing is assigned to: it
    has no assigned nodes and no shadow root, yet its own children are not
    what is traversed; the list is empty and the clone comes back
    childless. *)
Lemma unfilled_slot_drops_fallback :
  isSlotElement unfilled_slot = true
  /\ assignedNodes unfilled_slot = Some []
  /\ shadowRoot unfilled_slot = None
  /\ childNodes unfilled_slot = [text "fallback"]
  /\ children unfilled_slot = []
  /\ cloneChildren env unfilled_slot (shallowClone unfilled_slot) no_filter =
       ([], Resolved (shallowClone unfilled_slot)).
Proof. repeat split. Qed.


(** The poster of the video in [gallery] cannot be converted: the video's
    clone, the figure's, and the whole gallery's are rejected alike. *)
Lemma gallery_is_rejected :
  outcome (cloneVideoElement env (video "missing.png") no_filter)
    = Rejected "404"
  /\ outcome (cloneNode env (video "missing.png") no_filter false)
     = Rejected "404"
  /\ outcome (cloneNode env
                (element HTMLElement "FIGURE" [video "missing.png"])
                no_filter false)
     = Rejected "404"
  /\ outcome (cloneNode env gallery no_filter true) = Rejected "404".
Proof.
  destruct (poster_rejection_is_not_caught env (video "missing.png")
              no_filter "404" eq_refl) as (Hvideo & Hchain).
  split; [exact Hvideo |].
  split; [apply Hchain, attemptsb_attempts; vm_compute; reflexivity |].
  split; apply Hchain, attemptsb_attempts; vm_compute; reflexivity.
Defined.

(** A predicate that would exclude the root is not consulted about it. *)
Lemma root_script_is_cloned :
  ~ consults (cloneNode env script skip_scripts true) script
  /\ outcome (cloneNode env script skip_scripts true) <> Resolved None.
Proof.
  destruct (root_is_never_filtered env script skip_scripts) as (Hc & Hn & _).
  split; assumption.
Defined.

(** ** Further properties at concrete inputs *)

(** A serialized style with a [transform-origin]: the text is taken over,
    the origin assigned, and the clone's own [inset-block] is gone.  A
    serialized style without one: the clone has no [transform-origin]. *)
Lemma serialized_node_gets_the_text :
  (exists written : Style,
     c_style (cloneCSSStyle env turned_serialized
                (shallowClone turned_serialized)) = Some written
     /\ written !! "transform-origin" = Some ("10px 20px", "")
     /\ written !! "top" = Some ("auto", "")
     /\ written !! "inset-block" = None)
  /\ (exists written : Style,
        c_style (cloneCSSStyle env scrolled_serialized
                   (shallowClone scrolled_serialized)) = Some written
        /\ written !! "transform-origin" = None).
Proof.
  split.
  - destruct (serialized_style_is_copied_verbatim env turned_serialized
                (shallowClone turned_serialized)
                {[ "inset-block" := ("5px", "") ]} eq_refl)
      as (written & Hw & Ht & _ & Hrest).
    + discriminate.
    + exists written. split; [exact Hw |].
      split; [apply Ht; discriminate |].
      split; (rewrite Hrest by discriminate; vm_compute; reflexivity).
  - destruct (serialized_style_is_copied_verbatim env scrolled_serialized
                (shallowClone scrolled_serialized)
                {[ "inset-block" := ("5px", "") ]} eq_refl)
      as (written & Hw & _ & Ht & _).
    + discriminate.
    + exists written. split; [exact Hw | apply Ht; reflexivity].
Defined.



Lemma custom_property_survives :
  exists written : Style,
    c_style (cloneCSSStyle env tinted (shallowClone tinted)) = Some written
    /\ written !! "--accent" = Some ("blue", "").
Proof.
  destruct (unlisted_declarations_survive env tinted (shallowClone tinted)
              {[ "--accent" := ("blue", "") ]} "--accent" eq_refl eq_refl)
    as (written & Hw & Hk).
  - intros [H | []]. discriminate.
  - discriminate.
  - exists written. split; [exact Hw |]. rewrite Hk. vm_compute. reflexivity.
Defined.

Lemma plain_node_keeps_its_position :
  exists written : Style,
    c_style (cloneCSSStyle env plain (shallowClone plain)) = Some written
    /\ written !! "position" = Some ("absolute", "")
    /\ written !! "top" = Some ("10px", "")
    /\ written !! "inset-block" = Some ("5px", "").
Proof.
  destruct (quiet_parent_leaves_position_alone env plain (shallowClone plain)
              {[ "inset-block" := ("5px", "") ]} eq_refl eq_refl)
    as (written & Hw & Hp & Ht & Hi).
  - intros p Hnone. discriminate.
  - exists written. split; [exact Hw |].
    split; [apply Hp; vm_compute; in_list |].
    split; [apply Ht; vm_compute; in_list |].
    rewrite Hi; [vm_compute; reflexivity |].
    vm_compute. intros H. repeat destruct H as [H | H]; try discriminate.
    exact H.
Defined.

Lemma plain_node_keeps_its_overflow :
  exists written : Style,
    c_style (cloneCSSStyle env plain (shallowClone plain)) = Some written
    /\ written !! "overflow-y" = Some ("visible", "").
Proof.
  destruct (unscrolled_node_keeps_overflow env plain (shallowClone plain)
              {[ "inset-block" := ("5px", "") ]} eq_refl eq_refl)
    as (written & Hw & Ho).
  - vm_compute. in_list.
  - left. vm_compute. reflexivity.
  - exists written. split; [exact Hw | exact Ho].
Defined.

Lemma child_of_body_is_relative :
  exists written : Style,
    c_style (cloneCSSStyle env inside_body (shallowClone inside_body))
      = Some written
    /\ written !! "position" = Some ("relative", "")
    /\ written !! "inset-block" = None.
Proof.
  destruct (document_scroll_repositions env inside_body
              (shallowClone inside_body)
              {[ "inset-block" := ("5px", "") ]} body
              eq_refl eq_refl eq_refl)
    as (written & Hw & Hp & Hi).
  - discriminate.
  - reflexivity.
  - vm_compute. reflexivity.
  - exists written. split; [exact Hw |].
    split; [apply Hp; vm_compute; in_list |].
    apply (Hi ["height"; "inset-block"; "position"] []); [reflexivity |].
    intros [].
Defined.

Lemma typed_text_becomes_the_value_attribute :
  getAttribute "value"
    (c_attributes (cloneInputValue env field (shallowClone field)))
    = Some "typed"
  /\ getAttribute "type"
       (c_attributes (cloneInputValue env field (shallowClone field)))
     = Some "text".
Proof.
  destruct (input_value_becomes_attribute env field (shallowClone field) eq_refl)
    as (Hv & Hother & _).
  split; [exact Hv |]. rewrite Hother by discriminate. reflexivity.
Defined.

Lemma first_option_b_is_selected :
  c_childNodes (cloneSelectValue chooser cloned_chooser) =
    [cloned_text " "; cloned_option "a";
     setAttribute "selected" "" (cloned_option "b"); cloned_option "b"].
Proof.
  destruct (select_marks_the_first_match chooser cloned_chooser
              [cloned_text " "; cloned_option "a"] (cloned_option "b")
              [cloned_option "b"] eq_refl eq_refl)
    as (Hc & _).
  - repeat constructor.
  - reflexivity.
  - exact Hc.
Defined.

Lemma select_without_option_b_is_untouched :
  cloneSelectValue chooser cloned_chooser_elsewhere = cloned_chooser_elsewhere.
Proof.
  apply select_without_match_is_untouched. repeat constructor.
Defined.

Lemma typed_note_replaces_the_initial_text :
  exists clone,
    outcome (cloneNode env note no_filter true) = Resolved (Some clone)
    /\ c_childNodes clone = [cloned_text "typed"].
Proof.
  eexists. split; [vm_compute; reflexivity |].
  eapply (textarea_clone_holds_its_value env note no_filter true);
    [reflexivity | vm_compute; reflexivity].
Defined.

Lemma text_below_the_root_is_copied :
  outcome (cloneNode env (text "a") skip_scripts false) =
    Resolved (Some (shallowClone (text "a"))).
Proof.
  exact (text_node_is_cloned_verbatim env (text "a") skip_scripts false
           eq_refl eq_refl).
Defined.

Lemma video_with_poster_becomes_image :
  exists image,
    createImage "data:image/png;base64,AAAA" = ([], Resolved image)
    /\ cloneNode env (video "poster.png") no_filter true =
         ([EvCloneNode (video "poster.png") true;
           EvResource "poster.png" "image/png"],
          Resolved (Some (decorate env (video "poster.png") image))).
Proof.
  destruct (poster_video_becomes_image env (video "poster.png") no_filter
              "data:image/png;base64,AAAA" eq_refl)
    as (image & Himage & Hrun).
  - discriminate.
  - reflexivity.
  - exists image. split; assumption.
Defined.

Lemma video_without_poster_keeps_no_children :
  cloneNode env (video "") no_filter true =
    ([EvCloneNode (video "") true],
     Resolved (Some (decorate env (video "") (shallowClone (video ""))))).
Proof.
  apply video_without_poster_is_shallow; reflexivity.
Defined.

Lemma gallery_stops_at_the_figure :
  cloneChildren env gallery (shallowClone gallery) no_filter =
    (concat (map (fun c => trace (cloneNode env c no_filter false))
               [paragraph; element HTMLElement "FIGURE" [video "missing.png"]]),
     Rejected "404").
Proof.
  apply (traversal_stops_at_first_rejection env gallery (shallowClone gallery)
           no_filter [paragraph]
           (element HTMLElement "FIGURE" [video "missing.png"]) [span] "404").
  - discriminate.
  - reflexivity.
  - repeat constructor. eexists. vm_compute. reflexivity.
  - vm_compute. reflexivity.
Defined.

Lemma article_keeps_two_of_three :
  exists full,
    outcome (cloneChildren env article (shallowClone article) skip_scripts)
      = Resolved full
    /\ length (c_childNodes full) = 2.
Proof.
  destruct (kept_children_are_the_accepted_ones env article
              (shallowClone article) skip_scripts)
    as (full & Hrun & Hlen & _).
  - discriminate.
  - repeat constructor; eexists; vm_compute; reflexivity.
  - exists full. split; [exact Hrun |]. rewrite Hlen. reflexivity.
Defined.

Lemma paragraph_is_cloned_like_a_root :
  outcome (cloneNode env paragraph skip_scripts false) =
  outcome (cloneNode env paragraph skip_scripts true).
Proof.
  apply accepted_node_is_cloned_like_a_root. reflexivity.
Defined.

(** The run on the article, event by event. *)
Example run_of_article :
  trace (cloneNode env article skip_scripts true) =
    [EvCloneNode article true;
     EvCloneNode paragraph false; EvFilter paragraph;
     EvCloneNode (text "a") false; EvFilter (text "a");
     EvCloneNode script false; EvFilter script;
     EvCloneNode span false; EvFilter span].
Proof. reflexivity. Qed.

Lemma span_is_reached_below_the_root :
  effective_descendant article span
  /\ (false = true -> span = article /\ true = true).
Proof.
  apply (calls_stay_among_effective_descendants env skip_scripts
           article true span false).
  rewrite run_of_article. in_list.
Defined.

Lemma span_is_screened_after_being_visited :
  filter skip_scripts <> None
  /\ In (EvCloneNode span false) (trace (cloneNode env article skip_scripts true))
  /\ effective_descendant article span.
Proof.
  apply (predicate_sees_only_visited_nodes env skip_scripts article true span).
  unfold consults. rewrite run_of_article. in_list.
Defined.

Lemma gallery_converts_only_the_poster :
  exists v,
    effective_descendant gallery v
    /\ interface v = HTMLVideoElement
    /\ poster v = "missing.png" /\ "missing.png" <> ""
    /\ "image/png" = getMimeType env "missing.png".
Proof.
  destruct (effects_only_where_due env no_filter gallery true) as [Hconv _].
  apply Hconv, attemptsb_attempts. vm_compute. reflexivity.
Defined.

Lemma script_is_screened :
  consults (cloneNode env article skip_scripts true) script.
Proof.
  eapply (every_call_below_the_root_is_screened env skip_scripts);
    [reflexivity |].
  rewrite run_of_article. in_list.
Defined.

End Instances.
